(** * memory-mcp: cache, durable queue and asynchronous writer

    A shallow embedding of [src/cache.ts], [src/queue.ts],
    [src/index-gen.ts] and [src/writer.ts], with the properties their
    specification states about them. *)

From Stdlib Require Import String Ascii DecimalString.
From Stdlib Require Import List ZArith NArith Bool Lia Sorted.
Import ListNotations.
Local Open Scope Z_scope.

(* ================================================================== *)
(** * Part I: the program *)
(* ================================================================== *)

(** ** JavaScript strings

    A JavaScript string is a sequence of UTF-16 code units; [length],
    [indexOf], [slice], [split], the regular expressions without the [u]
    flag and the default [sort] all work on code units. *)
Definition jsstring : Type := list N.

(** An ASCII literal as a JavaScript string. *)
Definition str (s : string) : jsstring :=
  map N_of_ascii (list_ascii_of_string s).

Module JS.

Definition length (s : jsstring) : Z := Z.of_nat (List.length s).

Fixpoint eqb (a b : jsstring) : bool :=
  match a, b with
  | [], [] => true
  | x :: a', y :: b' => N.eqb x y && eqb a' b'
  | _, _ => false
  end.

(** [s.startsWith(pat)]. *)
Fixpoint startsWith (s pat : jsstring) : bool :=
  match pat, s with
  | [], _ => true
  | p :: pat', c :: s' => N.eqb p c && startsWith s' pat'
  | _ :: _, [] => false
  end.

Fixpoint indexOfFrom (s pat : jsstring) (i : Z) : Z :=
  if startsWith s pat then i
  else match s with
       | [] => -1
       | _ :: s' => indexOfFrom s' pat (i + 1)
       end.

(** [s.indexOf(pat)]: the least offset at which [pat] occurs, or -1. *)
Definition indexOf (s pat : jsstring) : Z := indexOfFrom s pat 0.

(** [s.includes(pat)]. *)
Fixpoint includes (s pat : jsstring) : bool :=
  startsWith s pat ||
  match s with
  | [] => false
  | _ :: s' => includes s' pat
  end.

(** [s.endsWith(suffix)]. *)
Definition endsWith (s suffix : jsstring) : bool :=
  startsWith (rev s) (rev suffix).

(** [s.slice(a, b)]: a negative index counts from the end, both are
    clamped to the string, and an empty range gives the empty string. *)
Definition slice (s : jsstring) (a b : Z) : jsstring :=
  let len := length s in
  let from := if a <? 0 then Z.max (len + a) 0 else Z.min a len in
  let to := if b <? 0 then Z.max (len + b) 0 else Z.min b len in
  firstn (Z.to_nat (to - from)) (skipn (Z.to_nat from) s).

(** [s.split(sep)] for a separator of one code unit. *)
Fixpoint split (s : jsstring) (sep : N) : list jsstring :=
  match s with
  | [] => [[]]
  | c :: s' =>
      if N.eqb c sep then [] :: split s' sep
      else match split s' sep with
           | seg :: segs => (c :: seg) :: segs
           | [] => [[c]]
           end
  end.

(** [s.replace(/[...]/g, rep)]: every code unit of the class is replaced. *)
Definition replaceAll (inClass : N -> bool) (rep : jsstring) (s : jsstring)
  : jsstring :=
  flat_map (fun c => if inClass c then rep else [c]) s.

(** [Buffer.byteLength(s, 'utf-8')]: a surrogate pair encodes one code
    point in four bytes, a lone surrogate is written as U+FFFD. *)
Definition isHighSurrogate (c : N) : bool := (N.leb 55296 c && N.ltb c 56320)%N.
Definition isLowSurrogate (c : N) : bool := (N.leb 56320 c && N.ltb c 57344)%N.

Fixpoint byteLength (s : jsstring) : Z :=
  match s with
  | [] => 0
  | c :: s' =>
      if N.ltb c 128 then 1 + byteLength s'
      else if N.ltb c 2048 then 2 + byteLength s'
      else if isHighSurrogate c then
        match s' with
        | d :: s'' => if isLowSurrogate d then 4 + byteLength s''
                      else 3 + byteLength s'
        | [] => 3
        end
      else 3 + byteLength s'
  end.

(** A non-negative integer inside a template literal. *)
Definition ofNumber (n : Z) : jsstring :=
  str (NilEmpty.string_of_uint (N.to_uint (Z.to_N n))).

(** [Math.round(a / b)] for [0 <= a] and [0 < b]: halves round up. *)
Definition roundDiv (a b : Z) : Z := (2 * a + b) / (2 * b).

(** The order of the default [sort]: code unit by code unit. *)
Fixpoint leb (a b : jsstring) : bool :=
  match a, b with
  | [], _ => true
  | _ :: _, [] => false
  | x :: a', y :: b' => N.ltb x y || (N.eqb x y && leb a' b')
  end.

Section Sorting.
Context {A : Type} (le : A -> A -> bool).

Fixpoint insert (x : A) (l : list A) : list A :=
  match l with
  | [] => [x]
  | y :: l' => if le x y then x :: l else y :: insert x l'
  end.

(** [xs.sort(cmp)] as a stable insertion sort; [Array.prototype.sort]
    is stable and, for a consistent comparison, this is its result. *)
Definition sortBy (l : list A) : list A := fold_right insert [] l.

End Sorting.

(** [xs.sort()] on strings. *)
Definition sort (l : list jsstring) : list jsstring := sortBy leb l.

(** A [Set] of strings, in insertion order. *)
Definition StringSet : Type := list jsstring.

Definition setHas (s : StringSet) (x : jsstring) : bool := existsb (eqb x) s.

Definition setAdd (s : StringSet) (x : jsstring) : StringSet :=
  if setHas s x then s else s ++ [x].

Definition setDelete (s : StringSet) (x : jsstring) : StringSet :=
  filter (fun y => negb (eqb y x)) s.

(** [new Set(xs)]. *)
Definition setOf (xs : list jsstring) : StringSet := fold_left setAdd xs [].

(** Lowercasing of one ASCII code unit. *)
Definition asciiLower (c : N) : N :=
  if (N.leb 65 c && N.leb c 90)%N then (c + 32)%N else c.

End JS.

(** ** The runtime

    What the program takes from its runtime and no source file defines:
    Unicode lowercasing, locale collation and the JSON rendering of the
    manifest.  [toLowerCase] maps ASCII text letter by letter. *)
Record IndexFile : Type := mkIndexFile {
  idx_categories : list jsstring;
  idx_files : list (jsstring * jsstring);
  idx_lastUpdated : jsstring
}.

Class Runtime : Type := {
  toLowerCase : jsstring -> jsstring;
  toLowerCase_ascii :
    forall s, Forall (fun c => (c < 128)%N) s ->
              toLowerCase s = map JS.asciiLower s;
  localeCompare : jsstring -> jsstring -> Z;
  stringifyIndex : IndexFile -> jsstring
}.

(** ** [src/cache.ts] *)
Module MemoryCache.
Section WithRuntime.
Context {R : Runtime}.

Record CacheEntry : Type := mkEntry { content : jsstring; sha : jsstring }.

Record SearchResult : Type := mkResult { path : jsstring; snippet : jsstring }.

(** The [Map] of the cache: keys in insertion order, one entry per key. *)
Definition t : Type := list (jsstring * CacheEntry).

Fixpoint get (c : t) (path : jsstring) : option CacheEntry :=
  match c with
  | [] => None
  | (k, e) :: c' => if JS.eqb k path then Some e else get c' path
  end.

(** [Map.set] keeps the position of a key that is already there. *)
Fixpoint set (c : t) (path content sha : jsstring) : t :=
  match c with
  | [] => [(path, mkEntry content sha)]
  | (k, e) :: c' =>
      if JS.eqb k path then (k, mkEntry content sha) :: c'
      else (k, e) :: set c' path content sha
  end.

Definition has (c : t) (path : jsstring) : bool :=
  match get c path with Some _ => true | None => false end.

(** [delete] gives the new cache and whether an entry was removed. *)
Definition delete (c : t) (path : jsstring) : t * bool :=
  (filter (fun kv => negb (JS.eqb (fst kv) path)) c, has c path).

Definition keys (c : t) : list jsstring := map fst c.

Definition entries (c : t) : list (jsstring * CacheEntry) := c.

Definition categories (c : t) : list jsstring :=
  let categories :=
    fold_left
      (fun (acc : JS.StringSet) path =>
         let parts := JS.split path 47%N in
         if (1 <? Z.of_nat (List.length parts)) then JS.setAdd acc (hd [] parts)
         else acc)
      (keys c) [] in
  JS.sort categories.

Definition extractSnippet (content query : jsstring) (matchIndex : option Z)
  : jsstring :=
  let maxLength := 150 in
  if JS.length content <=? maxLength then content
  else
    let matchIndex :=
      match matchIndex with
      | Some i => i
      | None => JS.indexOf (toLowerCase content) (toLowerCase query)
      end in
    if matchIndex =? -1 then JS.slice content 0 maxLength ++ str "..."
    else
      let snippetStart := Z.max 0 (matchIndex - 50) in
      let snippetEnd :=
        Z.min (JS.length content) (matchIndex + JS.length query + 100) in
      let snippet := JS.slice content snippetStart snippetEnd in
      let snippet :=
        if 0 <? snippetStart then str "..." ++ snippet else snippet in
      let snippet :=
        if snippetEnd <? JS.length content then snippet ++ str "..."
        else snippet in
      snippet.

Definition search (c : t) (query : jsstring) : list SearchResult :=
  let queryLower := toLowerCase query in
  flat_map
    (fun kv : jsstring * CacheEntry =>
       let (path, entry) := kv in
       if JS.includes (toLowerCase path) queryLower then
         [mkResult path (extractSnippet (content entry) query None)]
       else
         let contentLower := toLowerCase (content entry) in
         let matchIndex := JS.indexOf contentLower queryLower in
         if negb (matchIndex =? -1) then
           [mkResult path (extractSnippet (content entry) query (Some matchIndex))]
         else [])
    (entries c).

Definition clear (c : t) : t := [].

Definition size (c : t) : Z := Z.of_nat (List.length c).

End WithRuntime.
End MemoryCache.

(** ** [src/queue.ts] *)
Module WriteQueue.

Inductive Operation : Type := save | delete.

Record QueueItem : Type := mkItem {
  path : jsstring;
  content : jsstring;
  operation : Operation;
  timestamp : Z;
  retryCount : Z
}.

Definition MAX_RETRIES : Z := 3.

(** The [items] array; every method rewrites the queue file from it. *)
Definition t : Type := list QueueItem.

Definition withoutPath (items : t) (p : jsstring) : t :=
  filter (fun item => negb (JS.eqb (path item) p)) items.

(** [now] is [Date.now()]. *)
Definition enqueue (items : t) (now : Z) (p c : jsstring) (op : Operation) : t :=
  withoutPath items p ++ [mkItem p c op now 0].

(** [getAll] copies the array, not the items; a snapshot is read here
    as it is when [getAll] returns it. *)
Definition getAll (items : t) : list QueueItem := items.

Definition remove (items : t) (p : jsstring) : t := withoutPath items p.

(** [item.retryCount++] on the item that [find] returns, the first one
    for the path; the array holds the same object. *)
Fixpoint bumpFirst (items : t) (p : jsstring) : t :=
  match items with
  | [] => []
  | i :: items' =>
      if JS.eqb (path i) p
      then mkItem (path i) (content i) (operation i) (timestamp i)
                  (retryCount i + 1) :: items'
      else i :: bumpFirst items' p
  end.

Definition incrementRetry (items : t) (p : jsstring) : t * bool :=
  match find (fun i => JS.eqb (path i) p) items with
  | None => (items, false)
  | Some item =>
      let items1 := bumpFirst items p in
      if MAX_RETRIES <=? retryCount item + 1 then (withoutPath items1 p, false)
      else (items1, true)
  end.

Definition isEmpty (items : t) : bool := Z.of_nat (List.length items) =? 0.

Definition size (items : t) : Z := Z.of_nat (List.length items).

End WriteQueue.

(** ** [src/index-gen.ts] *)
Module IndexGen.
Section WithRuntime.
Context {R : Runtime}.

Definition INDEX_PATH : jsstring := str "index.json".

(** The manifest [updateIndex] derives from the keys of the cache;
    [nowIso] is [new Date().toISOString()]. *)
Definition buildIndex (nowIso : jsstring) (c : MemoryCache.t) : IndexFile :=
  let files :=
    JS.sortBy
      (fun a b => localeCompare (fst a) (fst b) <=? 0)
      (map (fun path =>
              let parts := JS.split path 47%N in
              let category :=
                if 1 <? Z.of_nat (List.length parts) then hd [] parts
                else str "root" in
              (path, category))
           (filter (fun path => negb (JS.eqb path INDEX_PATH))
                   (MemoryCache.keys c))) in
  let categories := JS.sort (JS.setOf (map snd files)) in
  mkIndexFile categories files nowIso.

(** The text [updateIndex] sends to the remote store. *)
Definition indexContent (nowIso : jsstring) (c : MemoryCache.t) : jsstring :=
  stringifyIndex (buildIndex nowIso c).

End WithRuntime.
End IndexGen.

(** ** [src/writer.ts]

    The writer runs on one thread and is suspended only where it awaits
    the remote store.  The state below holds the cache, the queue, the
    [pendingWrites] set, the tasks suspended on a remote call with what
    each does when the call settles, and the calls sent so far. *)
Module AsyncWriter.
Section WithRuntime.
Context {R : Runtime}.

Definition MAX_FILE_SIZE : Z := 1 * 1024 * 1024.

(** The two mutating calls of [GitHubClient]. *)
Inductive RemoteCall : Type :=
| putFile (path content : jsstring) (sha : option jsstring)
| deleteFile (path sha : jsstring).

(** How a call settles; [putFile] resolves to the new revision token. *)
Inductive Outcome : Type :=
| Fulfilled (newSha : jsstring)
| Rejected.

(** [Date.now()] and [new Date().toISOString()] when a step runs. *)
Record Clock : Type := mkClock { nowMs : Z; nowIso : jsstring }.

(** Where a task waits, with the variables its continuation uses. *)
Inductive Suspended : Type :=
| SyncPut (path content : jsstring)
| SyncIndex (path indexText : jsstring)
| DeleteCall (path : jsstring)
| DeleteIndex (path indexText : jsstring)
| DrainPut (item : WriteQueue.QueueItem) (rest : list WriteQueue.QueueItem)
| DrainDelete (item : WriteQueue.QueueItem) (rest : list WriteQueue.QueueItem)
| DrainIndex (indexText : jsstring).

Record World : Type := mkWorld {
  cache : MemoryCache.t;
  writeQueue : WriteQueue.t;
  pendingWrites : JS.StringSet;
  tasks : list (nat * Suspended);
  nextTask : nat;
  remote : list RemoteCall
}.

Definition withCache (c : MemoryCache.t) (w : World) : World :=
  mkWorld c (writeQueue w) (pendingWrites w) (tasks w) (nextTask w) (remote w).

Definition withQueue (q : WriteQueue.t) (w : World) : World :=
  mkWorld (cache w) q (pendingWrites w) (tasks w) (nextTask w) (remote w).

Definition withPending (p : JS.StringSet) (w : World) : World :=
  mkWorld (cache w) (writeQueue w) p (tasks w) (nextTask w) (remote w).

(** Task [tid] sends [call] and waits for it as [k]. *)
Definition await (tid : nat) (call : RemoteCall) (k : Suspended) (w : World)
  : World :=
  mkWorld (cache w) (writeQueue w) (pendingWrites w)
          (tasks w ++ [(tid, k)]) (Nat.max (nextTask w) (S tid))
          (remote w ++ [call]).

(** [updateIndex] of [src/index-gen.ts] up to its [putFile]. *)
Definition updateIndex (clk : Clock) (tid : nat) (k : jsstring -> Suspended)
    (w : World) : World :=
  let content := IndexGen.indexContent (nowIso clk) (cache w) in
  let existingIndex := MemoryCache.get (cache w) IndexGen.INDEX_PATH in
  await tid
        (putFile IndexGen.INDEX_PATH content
                 (option_map MemoryCache.sha existingIndex))
        (k content) w.

(** [updateIndex] after its [putFile]; [updateIndexSafe] drops the error. *)
Definition updateIndexSettled (content : jsstring) (o : Outcome) (w : World)
  : World :=
  match o with
  | Fulfilled newSha =>
      withCache (MemoryCache.set (cache w) IndexGen.INDEX_PATH content newSha) w
  | Rejected => w
  end.

Definition syncToGitHub (path content : jsstring) (sha : option jsstring)
    (w : World) : World :=
  if JS.setHas (pendingWrites w) path then w
  else
    let w := withPending (JS.setAdd (pendingWrites w) path) w in
    await (nextTask w) (putFile path content sha) (SyncPut path content) w.

Definition deleteFromGitHub (path sha : jsstring) (w : World) : World :=
  if JS.setHas (pendingWrites w) path then w
  else
    let w := withPending (JS.setAdd (pendingWrites w) path) w in
    await (nextTask w) (deleteFile path sha) (DeleteCall path) w.

Record SaveResult : Type := mkSaveResult {
  success : bool;
  path : jsstring;
  error : option jsstring
}.

Record DeleteResult : Type := mkDeleteResult {
  deleted : bool;
  deleteError : option jsstring
}.

(** The class [[^a-z0-9-]]. *)
Definition notCategoryChar (c : N) : bool :=
  negb ((N.leb 97 c && N.leb c 122) || (N.leb 48 c && N.leb c 57)
        || N.eqb c 45)%N.

Definition normalizeCategory (category : jsstring) : jsstring :=
  JS.replaceAll notCategoryChar (str "-") (toLowerCase category).

Definition normalizeName (name : jsstring) : jsstring :=
  if JS.endsWith name (str ".md") || JS.endsWith name (str ".yaml")
     || JS.endsWith name (str ".json")
  then name
  else name ++ str ".md".

Definition composePath (category name : jsstring) : jsstring :=
  normalizeCategory category ++ str "/" ++ normalizeName name.

Definition sizeError (contentSize : Z) : jsstring :=
  str "File size (" ++ JS.ofNumber (JS.roundDiv contentSize 1024)
  ++ str "KB) exceeds maximum allowed size ("
  ++ JS.ofNumber (MAX_FILE_SIZE / 1024) ++ str "KB)".

(** [save] up to its [return]: the background sync has sent its
    [putFile] and is suspended. *)
Definition save (category name content : jsstring) (w : World)
  : SaveResult * World :=
  let contentSize := JS.byteLength content in
  if MAX_FILE_SIZE <? contentSize then
    (mkSaveResult false [] (Some (sizeError contentSize)), w)
  else
    let path := composePath category name in
    let existing := MemoryCache.get (cache w) path in
    let sha := option_map MemoryCache.sha existing in
    let w :=
      withCache
        (MemoryCache.set (cache w) path content
           (match sha with Some s => s | None => str "pending" end)) w in
    let w := syncToGitHub path content sha w in
    (mkSaveResult true path None, w).

Definition delete (path : jsstring) (w : World) : DeleteResult * World :=
  match MemoryCache.get (cache w) path with
  | None =>
      (mkDeleteResult false (Some (str "File not found: " ++ path)), w)
  | Some existing =>
      let w := withCache (fst (MemoryCache.delete (cache w) path)) w in
      let w := deleteFromGitHub path (MemoryCache.sha existing) w in
      (mkDeleteResult true None, w)
  end.

(** The loop of [drainQueue] from [items] on, up to the next remote call;
    after the last item the index is rebuilt once. *)
Fixpoint drainLoop (clk : Clock) (tid : nat) (items : list WriteQueue.QueueItem)
    (w : World) : World :=
  match items with
  | [] => updateIndex clk tid DrainIndex w
  | item :: rest =>
      match WriteQueue.operation item with
      | WriteQueue.save =>
          let existing := MemoryCache.get (cache w) (WriteQueue.path item) in
          await tid
                (putFile (WriteQueue.path item) (WriteQueue.content item)
                         (option_map MemoryCache.sha existing))
                (DrainPut item rest) w
      | WriteQueue.delete =>
          match MemoryCache.get (cache w) (WriteQueue.path item) with
          | Some existing =>
              await tid
                    (deleteFile (WriteQueue.path item) (MemoryCache.sha existing))
                    (DrainDelete item rest) w
          | None =>
              drainLoop clk tid rest
                (withQueue (WriteQueue.remove (writeQueue w) (WriteQueue.path item)) w)
          end
      end
  end.

Definition drainQueue (clk : Clock) (w : World) : World :=
  let items := WriteQueue.getAll (writeQueue w) in
  if Z.of_nat (List.length items) =? 0 then w
  else drainLoop clk (nextTask w) items w.

(** What task [tid], suspended as [k], does once its call has settled,
    up to its next remote call or its end. *)
Definition resume (clk : Clock) (tid : nat) (k : Suspended) (o : Outcome)
    (w : World) : World :=
  match k with
  | SyncPut path content =>
      match o with
      | Fulfilled newSha =>
          let w := withCache (MemoryCache.set (cache w) path content newSha) w in
          updateIndex clk tid (SyncIndex path) w
      | Rejected =>
          let w :=
            withQueue (WriteQueue.enqueue (writeQueue w) (nowMs clk) path content
                                          WriteQueue.save) w in
          withPending (JS.setDelete (pendingWrites w) path) w
      end
  | SyncIndex path content =>
      let w := updateIndexSettled content o w in
      let w := withQueue (WriteQueue.remove (writeQueue w) path) w in
      withPending (JS.setDelete (pendingWrites w) path) w
  | DeleteCall path =>
      match o with
      | Fulfilled _ => updateIndex clk tid (DeleteIndex path) w
      | Rejected =>
          let w :=
            withQueue (WriteQueue.enqueue (writeQueue w) (nowMs clk) path []
                                          WriteQueue.delete) w in
          withPending (JS.setDelete (pendingWrites w) path) w
      end
  | DeleteIndex path content =>
      let w := updateIndexSettled content o w in
      let w := withQueue (WriteQueue.remove (writeQueue w) path) w in
      withPending (JS.setDelete (pendingWrites w) path) w
  | DrainPut item rest | DrainDelete item rest =>
      match o with
      | Fulfilled _ =>
          drainLoop clk tid rest
            (withQueue (WriteQueue.remove (writeQueue w) (WriteQueue.path item)) w)
      | Rejected =>
          drainLoop clk tid rest
            (withQueue
               (fst (WriteQueue.incrementRetry (writeQueue w) (WriteQueue.path item)))
               w)
      end
  | DrainIndex content => updateIndexSettled content o w
  end.

(** What happens to the writer: a request, or a remote call settling. *)
Inductive Event : Type :=
| CallSave (category name content : jsstring)
| CallDelete (path : jsstring)
| CallDrain
| Settle (tid : nat) (o : Outcome).

Definition takeTask (tid : nat) (w : World) : option Suspended * World :=
  match find (fun t => Nat.eqb (fst t) tid) (tasks w) with
  | None => (None, w)
  | Some t =>
      (Some (snd t),
       mkWorld (cache w) (writeQueue w) (pendingWrites w)
               (filter (fun t => negb (Nat.eqb (fst t) tid)) (tasks w))
               (nextTask w) (remote w))
  end.

Definition step (clk : Clock) (e : Event) (w : World) : World :=
  match e with
  | CallSave category name content => snd (save category name content w)
  | CallDelete path => snd (delete path w)
  | CallDrain => drainQueue clk w
  | Settle tid o =>
      match takeTask tid w with
      | (Some k, w') => resume clk tid k o w'
      | (None, _) => w
      end
  end.

Definition run (es : list (Clock * Event)) (w : World) : World :=
  fold_left (fun w ce => step (fst ce) (snd ce) w) es w.

(** A read served from the cache, as [read_memory] does on a hit. *)
Definition read (w : World) (path : jsstring) : option jsstring :=
  option_map MemoryCache.content (MemoryCache.get (cache w) path).

Definition initial : World := mkWorld [] [] [] [] 0%nat [].

End WithRuntime.
End AsyncWriter.

(** ** A runtime to evaluate with

    Lowercasing of the ASCII letters, the code unit order as collation,
    and the manifest laid out as [JSON.stringify(index, null, 2)] lays it
    out, quotes and backslashes escaped. *)
Module EvalRuntime.

Fixpoint join (sep : jsstring) (parts : list jsstring) : jsstring :=
  match parts with
  | [] => []
  | [p] => p
  | p :: ps => p ++ sep ++ join sep ps
  end.

Definition nl : jsstring := [10%N].

Definition jsonString (s : jsstring) : jsstring :=
  [34%N]
  ++ flat_map (fun c => if (N.eqb c 34 || N.eqb c 92)%N then [92%N; c] else [c]) s
  ++ [34%N].

Definition jsonArray (indent : jsstring) (items : list jsstring) : jsstring :=
  match items with
  | [] => str "[]"
  | _ =>
      str "[" ++ nl
      ++ join (str "," ++ nl) (map (fun i => indent ++ str "  " ++ i) items)
      ++ nl ++ indent ++ str "]"
  end.

Definition jsonFile (f : jsstring * jsstring) : jsstring :=
  str "{" ++ nl
  ++ str "      " ++ jsonString (str "path") ++ str ": " ++ jsonString (fst f)
  ++ str "," ++ nl
  ++ str "      " ++ jsonString (str "category") ++ str ": "
  ++ jsonString (snd f) ++ nl
  ++ str "    }".

Definition stringify (i : IndexFile) : jsstring :=
  str "{" ++ nl
  ++ str "  " ++ jsonString (str "categories") ++ str ": "
  ++ jsonArray (str "  ") (map jsonString (idx_categories i)) ++ str "," ++ nl
  ++ str "  " ++ jsonString (str "files") ++ str ": "
  ++ jsonArray (str "  ") (map jsonFile (idx_files i)) ++ str "," ++ nl
  ++ str "  " ++ jsonString (str "lastUpdated") ++ str ": "
  ++ jsonString (idx_lastUpdated i) ++ nl
  ++ str "}".

Definition compare (a b : jsstring) : Z :=
  if JS.eqb a b then 0 else if JS.leb a b then -1 else 1.

#[export] Instance runtime : Runtime := {|
  toLowerCase := map JS.asciiLower;
  toLowerCase_ascii := fun s _ => eq_refl;
  localeCompare := compare;
  stringifyIndex := stringify
|}.

End EvalRuntime.

(** ** A runtime with a lowercasing that lengthens

    As the first one, with the one unconditional special casing of
    Unicode that a JavaScript [toLowerCase] applies to a single code
    unit: U+0130, capital I with dot above, becomes "i" followed by
    U+0307, two code units. *)
Module DottedRuntime.

Definition lowerUnit (c : N) : jsstring :=
  if N.eqb c 304 then [105%N; 775%N] else [JS.asciiLower c].

Definition lower (s : jsstring) : jsstring := flat_map lowerUnit s.

#[export] Instance runtime : Runtime := {|
  toLowerCase := lower;
  toLowerCase_ascii :=
    ltac:(intros s H; induction H as [|c s Hc _ IH];
          [ reflexivity
          | unfold lower in *; cbn [flat_map map]; rewrite IH;
            unfold lowerUnit;
            destruct (N.eqb_spec c 304) as [E|_];
            [ rewrite E in Hc; discriminate Hc | reflexivity ] ]);
  localeCompare := EvalRuntime.compare;
  stringifyIndex := EvalRuntime.stringify
|}.

End DottedRuntime.

(** ** [src/index.ts] and [src/github.ts]: configuration and listing *)
Module Server.
Section WithRuntime.
Context {R : Runtime}.

(** The tail [[^/]+$] of the pattern of [ConfigSchema]; [seen] tells
    whether a character of the class has been read. *)
Fixpoint matchRepoName (s : jsstring) (seen : bool) : bool :=
  match s with
  | [] => seen
  | c :: s' => negb (N.eqb c 47) && matchRepoName s' true
  end.

(** [/^[^/]+\/[^/]+$/.test(s)]: the first slash ends the owner. *)
Fixpoint matchOwner (s : jsstring) (seen : bool) : bool :=
  match s with
  | [] => false
  | c :: s' =>
      if N.eqb c 47 then seen && matchRepoName s' false
      else matchOwner s' true
  end.

Definition repoPattern (s : jsstring) : bool := matchOwner s false.

(** A string is falsy when it is empty. *)
Definition falsy (s : jsstring) : bool :=
  match s with [] => true | _ => false end.

(** The constructor of [GitHubClient]: [owner] and [repo] are the first
    two parts of [config.repo]; [None] is the thrown error. *)
Definition parseRepo (repo : jsstring) : option (jsstring * jsstring) :=
  let parts := JS.split repo 47%N in
  match nth_error parts 0, nth_error parts 1 with
  | Some owner, Some name =>
      if falsy owner || falsy name then None else Some (owner, name)
  | _, _ => None
  end.

(** What [handleListKnowledge] lists when no "index.json" is cached:
    the files in cache order, the categories sorted. *)
Definition listFromCache (nowIso : jsstring) (c : MemoryCache.t) : IndexFile :=
  let files :=
    map (fun path =>
           let parts := JS.split path 47%N in
           (path,
            if 1 <? Z.of_nat (List.length parts) then hd [] parts
            else str "root"))
        (filter (fun path => negb (JS.eqb path (str "index.json")))
                (MemoryCache.keys c)) in
  let categories := JS.sort (JS.setOf (map snd files)) in
  mkIndexFile categories files nowIso.

End WithRuntime.
End Server.

(** ** [src/index.ts]: [read_memory] beside the writer

    [handleReadMemory] answers from the cache; on a miss it awaits
    [github.getFile] and then writes what came back into the cache.  The
    state holds the writer's state and the reads that wait for their
    file, each with its path.  The server is taken as initialized: its
    [github] and [writer] are set. *)
Module ReadMemory.
Section WithRuntime.
Context {R : Runtime}.

(** How [getFile] settles: the file, [null], or a thrown error. *)
Inductive Fetched : Type :=
| Found (content sha : jsstring)
| NotFound
| Failed (message : jsstring).

(** What the tool call returns; [Waiting] while it is suspended. *)
Inductive Reply : Type :=
| Text (content : jsstring)
| Error (message : jsstring)
| Waiting.

Record State : Type := mkState {
  writer : AsyncWriter.World;
  reads : list (nat * jsstring);
  nextRead : nat
}.

(** [handleReadMemory] up to its [await], or to its return on a hit. *)
Definition handleReadMemory (path : jsstring) (s : State) : Reply * State :=
  match MemoryCache.get (AsyncWriter.cache (writer s)) path with
  | Some entry => (Text (MemoryCache.content entry), s)
  | None =>
      (Waiting,
       mkState (writer s) (reads s ++ [(nextRead s, path)]) (S (nextRead s)))
  end.

(** [handleReadMemory] once [getFile] has settled for read [rid]; the
    error of a failed fetch is reported by the request handler. *)
Definition fetched (rid : nat) (r : Fetched) (s : State) : Reply * State :=
  match find (fun t => Nat.eqb (fst t) rid) (reads s) with
  | None => (Waiting, s)
  | Some t =>
      let path := snd t in
      let rest := filter (fun t => negb (Nat.eqb (fst t) rid)) (reads s) in
      match r with
      | Found content sha =>
          (Text content,
           mkState
             (AsyncWriter.withCache
                (MemoryCache.set (AsyncWriter.cache (writer s)) path content sha)
                (writer s))
             rest (nextRead s))
      | NotFound =>
          (Error (str "File not found: " ++ path),
           mkState (writer s) rest (nextRead s))
      | Failed message =>
          (Error (str "Error: " ++ message),
           mkState (writer s) rest (nextRead s))
      end
  end.

(** What happens to the server: an event of the writer, a [read_memory]
    request, or the [getFile] of a read settling. *)
Inductive Event : Type :=
| Writer (clk : AsyncWriter.Clock) (e : AsyncWriter.Event)
| Read (path : jsstring)
| Settled (rid : nat) (r : Fetched).

Definition step (e : Event) (s : State) : State :=
  match e with
  | Writer clk we =>
      mkState (AsyncWriter.step clk we (writer s)) (reads s) (nextRead s)
  | Read path => snd (handleReadMemory path s)
  | Settled rid r => snd (fetched rid r s)
  end.

Definition run (es : list Event) (s : State) : State :=
  fold_left (fun s e => step e s) es s.

End WithRuntime.
End ReadMemory.

(* ================================================================== *)
(** * Part II: what the specification says, as definitions *)
(* ================================================================== *)

Module Spec.
Section WithRuntime.
Context {R : Runtime}.

(** [s] ends in [suffix]. *)
Definition endsIn (s suffix : jsstring) : Prop :=
  exists prefix, s = prefix ++ suffix.

(** A code unit of the class [[a-z0-9-]]. *)
Definition categoryChar (c : N) : bool :=
  ((N.leb 97 c && N.leb c 122) || (N.leb 48 c && N.leb c 57) || N.eqb c 45)%N.

(** The category lowercased, every character outside the class
    replaced by a dash. *)
Definition normalizedCategory (category : jsstring) : jsstring :=
  map (fun c => if categoryChar c then c else 45%N) (toLowerCase category).

(** The first slash-delimited segment of a path. *)
Definition firstSegment (path : jsstring) : jsstring :=
  hd [] (JS.split path 47%N).

(** Strictly increasing in the code unit order: sorted and distinct. *)
Definition lexLt (a b : jsstring) : Prop := JS.leb a b = true /\ a <> b.

(** The distinct first segments of all the keys, sorted. *)
Definition firstSegmentsOfAllKeys (c : MemoryCache.t) : list jsstring :=
  JS.sort (JS.setOf (map firstSegment (MemoryCache.keys c))).

(** The characters of [s] from offset [a] up to offset [b]. *)
Definition window (s : jsstring) (a b : Z) : jsstring :=
  firstn (Z.to_nat (b - a)) (skipn (Z.to_nat a) s).

(** The query occurs at the start of [s], case apart: [s] has as many
    characters as the query, and the first of them, as many as the query
    has, lowercase to what the query lowercases to. *)
Definition occursHere (s query : jsstring) : bool :=
  (List.length query <=? List.length s)%nat
  && JS.eqb (toLowerCase (firstn (List.length query) s)) (toLowerCase query).

Fixpoint firstOccurrenceFrom (s query : jsstring) (i : Z) : Z :=
  if occursHere s query then i
  else match s with
       | [] => -1
       | _ :: s' => firstOccurrenceFrom s' query (i + 1)
       end.

(** The offset in the content of the first case-insensitive occurrence
    of the query, or -1 when there is none. *)
Definition firstOccurrence (content query : jsstring) : Z :=
  firstOccurrenceFrom content query 0.

(** The snippet of a content for a query that occurs at offset [i], or
    does not occur ([i] is -1). *)
Definition snippetAt (content query : jsstring) (i : Z) : jsstring :=
  let n := JS.length content in
  if n <=? 150 then content
  else
    if i =? -1 then firstn 150 content ++ str "..."
    else
      let a := Z.max 0 (i - 50) in
      let b := Z.min n (i + JS.length query + 100) in
      (if 0 <? a then str "..." else [])
      ++ window content a b
      ++ (if b <? n then str "..." else []).

(** The snippet of a content for a query: the one at the first
    case-insensitive occurrence of the query in the content. *)
Definition snippet (content query : jsstring) : jsstring :=
  snippetAt content query (firstOccurrence content query).

(** The calls a client makes on the queue, and their effect in turn. *)
Inductive QueueCall : Type :=
| Enqueue (now : Z) (path content : jsstring) (op : WriteQueue.Operation)
| Remove (path : jsstring)
| IncrementRetry (path : jsstring).

Definition call (q : WriteQueue.t) (c : QueueCall) : WriteQueue.t :=
  match c with
  | Enqueue now p x op => WriteQueue.enqueue q now p x op
  | Remove p => WriteQueue.remove q p
  | IncrementRetry p => fst (WriteQueue.incrementRetry q p)
  end.

Definition calls (q : WriteQueue.t) (cs : list QueueCall) : WriteQueue.t :=
  fold_left call cs q.

Definition forPath (p : jsstring) (i : WriteQueue.QueueItem) : bool :=
  JS.eqb (WriteQueue.path i) p.

(** The event is a save or a delete of the path [p]. *)
Definition touches (p : jsstring) (e : AsyncWriter.Event) : Prop :=
  match e with
  | AsyncWriter.CallSave category name _ =>
      AsyncWriter.composePath category name = p
  | AsyncWriter.CallDelete q => q = p
  | _ => False
  end.

(** A read of [p] gives [x], and every sync of [p] that waits for the
    remote store carries [x]. *)
Definition settled (p x : jsstring) (w : AsyncWriter.World) : Prop :=
  AsyncWriter.read w p = Some x
  /\ forall tid c,
       In (tid, AsyncWriter.SyncPut p c) (AsyncWriter.tasks w) -> c = x.

(** At most one item per path. *)
Definition onePerPath (q : WriteQueue.t) : Prop :=
  NoDup (map WriteQueue.path q).

(** Every retry count is below the maximum. *)
Definition retriesBounded (q : list WriteQueue.QueueItem) : Prop :=
  Forall (fun i => WriteQueue.retryCount i < WriteQueue.MAX_RETRIES) q.

End WithRuntime.
End Spec.

(** ** Predicates on the state of the writer and of the cache *)
Module Props.
Section WithRuntime.
Context {R : Runtime}.
Import AsyncWriter.

(** The path whose in-flight marker a suspended task holds: the tasks
    of [syncToGitHub] and [deleteFromGitHub], up to their [finally]. *)
Definition marked (k : Suspended) : option jsstring :=
  match k with
  | SyncPut p _ | SyncIndex p _ | DeleteCall p | DeleteIndex p _ => Some p
  | DrainPut _ _ | DrainDelete _ _ | DrainIndex _ => None
  end.

Fixpoint markedPaths (ts : list (nat * Suspended)) : list jsstring :=
  match ts with
  | [] => []
  | t :: ts' =>
      match marked (snd t) with
      | Some p => p :: markedPaths ts'
      | None => markedPaths ts'
      end
  end.

(** Task numbers are not reused. *)
Definition freshTasks (w : World) : Prop :=
  NoDup (map fst (tasks w))
  /\ forall t, In t (tasks w) -> (fst t < nextTask w)%nat.

(** At most one background sync or delete per path, and [pendingWrites]
    holds exactly the paths that have one. *)
Definition oneSyncPerPath (w : World) : Prop :=
  freshTasks w
  /\ NoDup (markedPaths (tasks w))
  /\ forall p, In p (markedPaths (tasks w))
               <-> JS.setHas (pendingWrites w) p = true.

(** The server event is a save or a delete of the path [p]. *)
Definition requests (p : jsstring) (e : ReadMemory.Event) : Prop :=
  match e with
  | ReadMemory.Writer _ we => Spec.touches p we
  | ReadMemory.Read _ | ReadMemory.Settled _ _ => False
  end.

(** The category the manifest gives a path. *)
Definition categoryOf (path : jsstring) : jsstring :=
  if existsb (N.eqb 47) path then Spec.firstSegment path else str "root".

(** The record matches the query on its path or on its content. *)
Definition matches (query : jsstring) (kv : jsstring * MemoryCache.CacheEntry)
  : bool :=
  JS.includes (toLowerCase (fst kv)) (toLowerCase query)
  || JS.includes (toLowerCase (MemoryCache.content (snd kv)))
                 (toLowerCase query).

End WithRuntime.
End Props.

(* ================================================================== *)
(** * Part III: properties *)
(* ================================================================== *)

(** ** Strings *)
Section StringFacts.

Lemma eqb_eq (a b : jsstring) : JS.eqb a b = true <-> a = b.
Proof.
  revert b; induction a as [|x a IH]; intros [|y b]; simpl;
    try (split; [discriminate | congruence]); try tauto.
  rewrite andb_true_iff, N.eqb_eq, IH. split.
  - intros [-> ->]; reflexivity.
  - intros E; injection E; auto.
Qed.

Lemma eqb_refl (a : jsstring) : JS.eqb a a = true.
Proof. apply eqb_eq; reflexivity. Qed.

Lemma eqb_neq (a b : jsstring) : JS.eqb a b = false <-> a <> b.
Proof.
  rewrite <- eqb_eq. destruct (JS.eqb a b); split; congruence.
Qed.

Lemma eqb_sym (a b : jsstring) : JS.eqb a b = JS.eqb b a.
Proof.
  destruct (JS.eqb a b) eqn:E.
  - apply eqb_eq in E; subst; symmetry; apply eqb_refl.
  - apply eqb_neq in E. symmetry; apply eqb_neq; congruence.
Qed.

Lemma startsWith_nil (s : jsstring) : JS.startsWith s [] = true.
Proof. destruct s; reflexivity. Qed.

Lemma startsWith_spec (s pat : jsstring) :
  JS.startsWith s pat = true <-> exists rest, s = pat ++ rest.
Proof.
  revert s; induction pat as [|p pat IH]; intros s.
  - rewrite startsWith_nil. split; [exists s; reflexivity | reflexivity].
  - destruct s as [|c s]; simpl.
    + split; [discriminate | intros [r E]; discriminate].
    + rewrite andb_true_iff, N.eqb_eq, IH. split.
      * intros [-> [r ->]]. exists r; reflexivity.
      * intros [r E]; injection E as -> ->. split; [reflexivity | eauto].
Qed.

Lemma endsWith_spec (s suffix : jsstring) :
  JS.endsWith s suffix = true <-> Spec.endsIn s suffix.
Proof.
  unfold JS.endsWith, Spec.endsIn. rewrite startsWith_spec. split.
  - intros [r E]. exists (rev r).
    rewrite <- (rev_involutive s), E, rev_app_distr, rev_involutive.
    reflexivity.
  - intros [p ->]. exists (rev p). apply rev_app_distr.
Qed.

Lemma indexOf_nil (s : jsstring) : JS.indexOf s [] = 0.
Proof. unfold JS.indexOf; destruct s; reflexivity. Qed.

Lemma includes_nil (s : jsstring) : JS.includes s [] = true.
Proof. destruct s; reflexivity. Qed.

Lemma length_nonneg (s : jsstring) : 0 <= JS.length s.
Proof. unfold JS.length; lia. Qed.

(** Inside the string, [slice] is the window between the two offsets. *)
Lemma slice_window (s : jsstring) (a b : Z) :
  0 <= a -> 0 <= b <= JS.length s -> JS.slice s a b = Spec.window s a b.
Proof.
  intros Ha Hb. unfold JS.slice, Spec.window.
  destruct (Z.ltb_spec a 0); [lia|]. destruct (Z.ltb_spec b 0); [lia|].
  rewrite (Z.min_l b) by lia.
  destruct (Z.le_gt_cases a (JS.length s)) as [L|G].
  - rewrite Z.min_l by lia. reflexivity.
  - rewrite Z.min_r by lia. unfold JS.length in *.
    rewrite !skipn_all2 by lia. rewrite !firstn_nil. reflexivity.
Qed.

Lemma slice_prefix (s : jsstring) (b : Z) :
  0 <= b <= JS.length s -> JS.slice s 0 b = firstn (Z.to_nat b) s.
Proof.
  intros Hb. rewrite slice_window by lia. unfold Spec.window.
  rewrite Z.sub_0_r. reflexivity.
Qed.

Lemma byteLength_repeat_ascii (c : N) (n : nat) :
  (c < 128)%N -> JS.byteLength (repeat c n) = Z.of_nat n.
Proof.
  intros Hc. induction n as [|n IH]; [reflexivity|].
  cbn [repeat JS.byteLength]. apply N.ltb_lt in Hc. rewrite Hc, IH. lia.
Qed.

End StringFacts.

(** ** The cache as a map *)
Section CacheFacts.

Lemma get_set_same (c : MemoryCache.t) (p x s : jsstring) :
  MemoryCache.get (MemoryCache.set c p x s) p = Some (MemoryCache.mkEntry x s).
Proof.
  induction c as [|[k e] c IH]; simpl.
  - rewrite eqb_refl; reflexivity.
  - destruct (JS.eqb k p) eqn:E; simpl; rewrite E; auto.
Qed.

Lemma get_set_other (c : MemoryCache.t) (p q x s : jsstring) :
  p <> q ->
  MemoryCache.get (MemoryCache.set c p x s) q = MemoryCache.get c q.
Proof.
  intros N. induction c as [|[k e] c IH]; simpl.
  - assert (JS.eqb p q = false) as -> by (apply eqb_neq; exact N).
    reflexivity.
  - destruct (JS.eqb k p) eqn:E; simpl.
    + apply eqb_eq in E; subst k.
      assert (JS.eqb p q = false) as -> by (apply eqb_neq; exact N).
      reflexivity.
    + destruct (JS.eqb k q); auto.
Qed.

(** [set] on a key that is there changes no key and no position. *)
Lemma keys_set_present (c : MemoryCache.t) (p x s : jsstring) :
  MemoryCache.has c p = true ->
  MemoryCache.keys (MemoryCache.set c p x s) = MemoryCache.keys c.
Proof.
  unfold MemoryCache.has, MemoryCache.keys.
  induction c as [|[k e] c IH]; simpl; [discriminate|].
  destruct (JS.eqb k p) eqn:E; simpl; intros H; [reflexivity|].
  f_equal; auto.
Qed.

(** [set] on a new key appends it. *)
Lemma keys_set_absent (c : MemoryCache.t) (p x s : jsstring) :
  MemoryCache.has c p = false ->
  MemoryCache.keys (MemoryCache.set c p x s) = MemoryCache.keys c ++ [p].
Proof.
  unfold MemoryCache.has, MemoryCache.keys.
  induction c as [|[k e] c IH]; simpl; [reflexivity|].
  destruct (JS.eqb k p) eqn:E; simpl; intros H; [discriminate|].
  f_equal; auto.
Qed.

End CacheFacts.

(** ** The writer *)
Section WriterFacts.
Context {R : Runtime}.
Import AsyncWriter.

Lemma cache_await tid rc k (w : World) : cache (await tid rc k w) = cache w.
Proof. reflexivity. Qed.

Lemma cache_syncToGitHub p x s (w : World) :
  cache (syncToGitHub p x s w) = cache w.
Proof. unfold syncToGitHub. destruct (JS.setHas _ _); reflexivity. Qed.

Lemma queue_syncToGitHub p x s (w : World) :
  writeQueue (syncToGitHub p x s w) = writeQueue w.
Proof. unfold syncToGitHub. destruct (JS.setHas _ _); reflexivity. Qed.

Lemma cache_drainLoop clk tid items (w : World) :
  cache (drainLoop clk tid items w) = cache w.
Proof.
  revert w; induction items as [|item rest IH]; intros w; simpl.
  - reflexivity.
  - destruct (WriteQueue.operation item); [reflexivity|].
    destruct (MemoryCache.get _ _); [reflexivity|].
    rewrite IH. reflexivity.
Qed.

(** A remote call that fails leaves the cache as it is, whichever task
    was waiting for it. *)
Lemma cache_resume_rejected clk tid k (w : World) :
  cache (resume clk tid k Rejected w) = cache w.
Proof.
  destruct k; simpl; try reflexivity; rewrite cache_drainLoop; reflexivity.
Qed.

Lemma size_accepted (content : jsstring) :
  JS.byteLength content <= MAX_FILE_SIZE ->
  (MAX_FILE_SIZE <? JS.byteLength content) = false.
Proof. intros H. apply Z.ltb_ge. exact H. Qed.

Lemma replaceAll_dash (s : jsstring) :
  JS.replaceAll notCategoryChar (str "-") s
  = map (fun c => if Spec.categoryChar c then c else 45%N) s.
Proof.
  unfold JS.replaceAll. induction s as [|c s IH]; [reflexivity|].
  cbn [flat_map map]. rewrite IH. unfold notCategoryChar.
  fold (Spec.categoryChar c). destruct (Spec.categoryChar c); reflexivity.
Qed.

Lemma normalizeCategory_spec (category : jsstring) :
  normalizeCategory category = Spec.normalizedCategory category.
Proof. apply replaceAll_dash. Qed.

Lemma normalizeName_kept (name : jsstring) :
  Spec.endsIn name (str ".md") \/ Spec.endsIn name (str ".yaml")
  \/ Spec.endsIn name (str ".json") ->
  normalizeName name = name.
Proof.
  intros H. unfold normalizeName.
  rewrite <- !endsWith_spec in H.
  destruct H as [-> | [-> | ->]]; rewrite ?orb_true_r; reflexivity.
Qed.

Lemma normalizeName_extended (name : jsstring) :
  ~ (Spec.endsIn name (str ".md") \/ Spec.endsIn name (str ".yaml")
     \/ Spec.endsIn name (str ".json")) ->
  normalizeName name = name ++ str ".md".
Proof.
  intros H. unfold normalizeName.
  rewrite <- !endsWith_spec in H.
  destruct (JS.endsWith name (str ".md")); [tauto|].
  destruct (JS.endsWith name (str ".yaml")); [tauto|].
  destruct (JS.endsWith name (str ".json")); [tauto|].
  reflexivity.
Qed.

End WriterFacts.

(** ** [AsyncWriter.save] *)
Section SaveClaims.
Context {R : Runtime}.
Import AsyncWriter.

(** What an accepted [save] returns and what it leaves in the cache. *)
Lemma save_accepted (category name content : jsstring) (w : World) :
  JS.byteLength content <= MAX_FILE_SIZE ->
  let p := composePath category name in
  fst (save category name content w) = mkSaveResult true p None
  /\ MemoryCache.get (cache (snd (save category name content w))) p
     = Some (MemoryCache.mkEntry content
               (match MemoryCache.get (cache w) p with
                | Some existing => MemoryCache.sha existing
                | None => str "pending"
                end)).
Proof.
  intros Hsize p. unfold save.
  rewrite (size_accepted _ Hsize). fold p. cbn [fst snd].
  rewrite cache_syncToGitHub. cbn [cache withCache].
  split; [reflexivity|].
  rewrite get_set_same. destruct (MemoryCache.get (cache w) p); reflexivity.
Qed.

(** C1, as amended.  When [save] accepts a content and returns, the cache
    holds a record for the composed path with that content; its revision
    token is the token of the record that was cached for the path before,
    and the sentinel "pending" only when there was none.  The background
    sync, when one was launched, is still waiting for the remote store,
    and the queue is untouched. *)
Theorem save_caches_content_keeps_token
    (category name content : jsstring) (w : World) :
  JS.byteLength content <= MAX_FILE_SIZE ->
  let p := composePath category name in
  let w' := snd (save category name content w) in
  fst (save category name content w) = mkSaveResult true p None
  /\ MemoryCache.get (cache w') p
     = Some (MemoryCache.mkEntry content
               (match MemoryCache.get (cache w) p with
                | Some existing => MemoryCache.sha existing
                | None => str "pending"
                end))
  /\ (JS.setHas (pendingWrites w) p = false ->
      tasks w' = tasks w ++ [(nextTask w, SyncPut p content)])
  /\ (JS.setHas (pendingWrites w) p = true -> tasks w' = tasks w)
  /\ writeQueue w' = writeQueue w.
Proof.
  intros Hsize p w'.
  destruct (save_accepted category name content w Hsize) as [Hr Hget].
  split; [exact Hr|]. split; [exact Hget|].
  subst w'. unfold save. rewrite (size_accepted _ Hsize). fold p. cbn [snd].
  rewrite queue_syncToGitHub.
  unfold syncToGitHub. cbn [pendingWrites withCache writeQueue].
  repeat split; intros H; rewrite H; reflexivity.
Qed.

(** C8.  A content of more than 1 MiB in UTF-8 is refused with a message
    that names the size and the limit, and nothing changes: the cache,
    the queue, the in-flight set, the suspended tasks and the calls sent
    to the remote store are what they were. *)
Theorem save_rejects_oversized
    (category name content : jsstring) (w : World) :
  MAX_FILE_SIZE < JS.byteLength content ->
  save category name content w
  = (mkSaveResult false []
       (Some (str "File size ("
              ++ JS.ofNumber (JS.roundDiv (JS.byteLength content) 1024)
              ++ str "KB) exceeds maximum allowed size (1024KB)")),
     w).
Proof.
  intros H. unfold save. apply Z.ltb_lt in H. rewrite H.
  unfold sizeError. repeat f_equal.
Qed.

(** C9.  The path under which [save] stores and which it returns is the
    normalized category, a slash and the normalized name: the category
    lowercased with every code unit outside [[a-z0-9-]] replaced by a
    dash, the name as given when it ends in ".md", ".yaml" or ".json"
    and with ".md" appended otherwise. *)
Theorem save_path_composition
    (category name content : jsstring) (w : World) :
  JS.byteLength content <= MAX_FILE_SIZE ->
  let r := fst (save category name content w) in
  let w' := snd (save category name content w) in
  path r = Spec.normalizedCategory category ++ str "/" ++ normalizeName name
  /\ (Spec.endsIn name (str ".md") \/ Spec.endsIn name (str ".yaml")
      \/ Spec.endsIn name (str ".json") -> normalizeName name = name)
  /\ (~ (Spec.endsIn name (str ".md") \/ Spec.endsIn name (str ".yaml")
         \/ Spec.endsIn name (str ".json")) ->
      normalizeName name = name ++ str ".md")
  /\ read w' (path r) = Some content
  /\ normalizeCategory (str "My Project!") = str "my-project-".
Proof.
  intros Hsize r w'.
  destruct (save_accepted category name content w Hsize) as [Hr Hget].
  subst r w'. rewrite Hr. cbn [path].
  split; [unfold composePath; rewrite normalizeCategory_spec; reflexivity|].
  split; [apply normalizeName_kept|].
  split; [apply normalizeName_extended|].
  split; [unfold read; rewrite Hget; reflexivity|].
  unfold normalizeCategory. rewrite toLowerCase_ascii.
  - reflexivity.
  - repeat constructor.
Qed.

End SaveClaims.

(** ** [AsyncWriter.drainQueue] and the race of two saves *)
Section DrainClaims.
Context {R : Runtime}.
Import AsyncWriter.

(** The loop of a drain always reaches a remote call: the next item's,
    or the index rebuild that ends it. *)
Lemma drainLoop_sends clk tid items (w : World) :
  (List.length (remote w) < List.length (remote (drainLoop clk tid items w)))%nat.
Proof.
  revert w; induction items as [|item rest IH]; intros w; simpl.
  - unfold updateIndex, await; cbn [remote]. rewrite length_app; simpl; lia.
  - destruct (WriteQueue.operation item).
    + unfold await; cbn [remote]. rewrite length_app; simpl; lia.
    + destruct (MemoryCache.get _ _).
      * unfold await; cbn [remote]. rewrite length_app; simpl; lia.
      * specialize (IH (withQueue
          (WriteQueue.remove (writeQueue w) (WriteQueue.path item)) w)).
        exact IH.
Qed.

(** A drain of a queue that holds something does reach the remote store. *)
Lemma drain_nonempty_sends clk (w : World) :
  WriteQueue.getAll (writeQueue w) <> [] ->
  (List.length (remote w) < List.length (remote (drainQueue clk w)))%nat.
Proof.
  intros H. unfold drainQueue.
  destruct (WriteQueue.getAll (writeQueue w)) as [|i q] eqn:E; [congruence|].
  cbn [List.length]. replace (Z.of_nat (S (List.length q)) =? 0) with false
    by (symmetry; apply Z.eqb_neq; lia).
  apply drainLoop_sends.
Qed.

(** C7.  When the snapshot of the queue is empty, [drainQueue] changes
    nothing: no call is sent to the remote store (so no index rebuild,
    which is one), no task is left waiting, and the cache, the queue and
    the in-flight set are what they were. *)
Theorem drain_empty_queue_is_noop (clk : Clock) (w : World) :
  WriteQueue.getAll (writeQueue w) = [] ->
  drainQueue clk w = w /\ step clk CallDrain w = w.
Proof.
  intros H. unfold step, drainQueue. rewrite H. split; reflexivity.
Qed.

End DrainClaims.

Section RaceFacts.
Context {R : Runtime}.
Import AsyncWriter.

Lemma get_delete_other (c : MemoryCache.t) (p q : jsstring) :
  p <> q ->
  MemoryCache.get (fst (MemoryCache.delete c p)) q = MemoryCache.get c q.
Proof.
  intros N. unfold MemoryCache.delete. cbn [fst].
  induction c as [|[k e] c IH]; [reflexivity|]. simpl.
  destruct (JS.eqb k p) eqn:E; simpl.
  - apply eqb_eq in E; subst k.
    assert (JS.eqb p q = false) as -> by (apply eqb_neq; exact N). exact IH.
  - destruct (JS.eqb k q); [reflexivity | exact IH].
Qed.

Lemma composePath_not_index (category name : jsstring) :
  composePath category name <> IndexGen.INDEX_PATH.
Proof.
  intros E.
  assert (In 47%N (composePath category name)) as H
    by (unfold composePath; rewrite !in_app_iff; right; left; left; reflexivity).
  rewrite E in H. vm_compute in H. intuition discriminate.
Qed.

Lemma syncs_await tid rc k (w : World) t p c :
  (forall q x, k <> SyncPut q x) ->
  In (t, SyncPut p c) (tasks (await tid rc k w)) ->
  In (t, SyncPut p c) (tasks w).
Proof.
  intros Hk. unfold await; cbn [tasks]. rewrite in_app_iff.
  intros [H | [H | []]]; [exact H|]. injection H as _ H.
  destruct (Hk _ _ H).
Qed.

Lemma syncs_updateIndex clk tid (k : jsstring -> Suspended) (w : World) t p c :
  (forall i q x, k i <> SyncPut q x) ->
  In (t, SyncPut p c) (tasks (updateIndex clk tid k w)) ->
  In (t, SyncPut p c) (tasks w).
Proof. intros Hk. unfold updateIndex. apply syncs_await. apply Hk. Qed.

Lemma syncs_drainLoop clk tid items (w : World) t p c :
  In (t, SyncPut p c) (tasks (drainLoop clk tid items w)) ->
  In (t, SyncPut p c) (tasks w).
Proof.
  revert w; induction items as [|item rest IH]; intros w; simpl.
  - apply syncs_updateIndex. discriminate.
  - destruct (WriteQueue.operation item).
    + apply syncs_await. discriminate.
    + destruct (MemoryCache.get _ _).
      * apply syncs_await. discriminate.
      * intros H. apply IH in H. exact H.
Qed.

Lemma read_updateIndexSettled content o (w : World) (p : jsstring) :
  p <> IndexGen.INDEX_PATH ->
  read (updateIndexSettled content o w) p = read w p.
Proof.
  intros N. unfold read, updateIndexSettled. destruct o; [|reflexivity].
  cbn [cache withCache]. rewrite get_set_other by congruence. reflexivity.
Qed.

Lemma tasks_updateIndexSettled content o (w : World) :
  tasks (updateIndexSettled content o w) = tasks w.
Proof. destruct o; reflexivity. Qed.

Lemma tasks_takeTask tid (w : World) k w' :
  takeTask tid w = (Some k, w') ->
  In (tid, k) (tasks w) /\ cache w' = cache w
  /\ forall t, In t (tasks w') -> In t (tasks w).
Proof.
  unfold takeTask.
  destruct (find _ (tasks w)) as [[n k0]|] eqn:F; [|discriminate].
  intros [= <- <-]. apply find_some in F as [F E]. cbn [fst snd] in *.
  apply Nat.eqb_eq in E. subst n. cbn [tasks cache].
  split; [exact F|]. split; [reflexivity|].
  intros t Ht. apply filter_In in Ht. tauto.
Qed.

(** An event that is neither a save nor a delete of [p] keeps a read of
    [p]: a sync that succeeds writes back the content it carries, which
    is the cached one, and everything else leaves the record alone. *)
Lemma settled_step clk (e : Event) (w : World) (p x : jsstring) :
  p <> IndexGen.INDEX_PATH ->
  ~ Spec.touches p e ->
  Spec.settled p x w -> Spec.settled p x (step clk e w).
Proof.
  intros NI NT [Hr Hs]. unfold Spec.settled, read in *.
  destruct e as [category name content | q | | tid o]; cbn [step Spec.touches] in *.
  - unfold save. destruct (MAX_FILE_SIZE <? JS.byteLength content);
      cbn [snd]; [split; assumption|].
    rewrite cache_syncToGitHub. cbn [cache withCache].
    rewrite get_set_other by exact NT. split; [exact Hr|].
    intros t c. unfold syncToGitHub. cbn [pendingWrites withCache].
    destruct (JS.setHas _ _); [apply Hs|]. intros H.
    unfold await in H; cbn [tasks withPending withCache] in H.
    apply in_app_iff in H as [H | [H | []]]; [eapply Hs, H|].
    injection H as _ H _. contradiction.
  - unfold delete. destruct (MemoryCache.get (cache w) q) as [existing|] eqn:G;
      cbn [snd]; [|split; assumption].
    unfold deleteFromGitHub. cbn [pendingWrites withCache].
    destruct (JS.setHas _ _); cbn [cache withCache tasks await withPending];
      rewrite get_delete_other by exact NT; (split; [exact Hr|]).
    + apply Hs.
    + intros t c H. apply in_app_iff in H as [H | [H | []]];
        [eapply Hs, H | discriminate H].
  - unfold drainQueue. destruct (_ =? 0); [split; assumption|].
    rewrite cache_drainLoop. split; [exact Hr|].
    intros t c H. apply syncs_drainLoop in H. eapply Hs, H.
  - destruct (takeTask tid w) as [[k|] w'] eqn:T; [|split; assumption].
    apply tasks_takeTask in T as (Hin & Hc & Hsub).
    assert (Hs' : forall t c, In (t, SyncPut p c) (tasks w') -> c = x)
      by (intros t c H; eapply Hs, Hsub, H).
    rewrite <- Hc in Hr. clear Hc Hsub.
    destruct k as [q c | q i | q | q i | item rest | item rest | i];
      cbn [resume].
    + destruct o as [newSha|]; cbn [cache tasks withCache withQueue withPending].
      * split.
        -- unfold updateIndex; rewrite cache_await. cbn [cache withCache].
           destruct (JS.eqb q p) eqn:Q.
           ++ apply eqb_eq in Q; subst q. rewrite get_set_same.
              rewrite (Hs _ _ Hin). reflexivity.
           ++ apply eqb_neq in Q. rewrite get_set_other by exact Q. exact Hr.
        -- intros t c0 H. apply syncs_updateIndex in H; [|discriminate].
           eapply Hs', H.
      * split; [exact Hr | exact Hs'].
    + pose proof (read_updateIndexSettled i o w' p NI) as Hu.
      unfold read in Hu. cbn [cache tasks withCache withQueue withPending].
      rewrite Hu, tasks_updateIndexSettled. split; [exact Hr | exact Hs'].
    + destruct o as [newSha|].
      * split; [unfold updateIndex; rewrite cache_await; exact Hr|].
        intros t c0 H. apply syncs_updateIndex in H; [|discriminate].
        eapply Hs', H.
      * split; [exact Hr | exact Hs'].
    + pose proof (read_updateIndexSettled i o w' p NI) as Hu.
      unfold read in Hu. cbn [cache tasks withCache withQueue withPending].
      rewrite Hu, tasks_updateIndexSettled. split; [exact Hr | exact Hs'].
    + destruct o; rewrite cache_drainLoop; (split; [exact Hr|]);
        intros t c0 H; apply syncs_drainLoop in H; eapply Hs', H.
    + destruct o; rewrite cache_drainLoop; (split; [exact Hr|]);
        intros t c0 H; apply syncs_drainLoop in H; eapply Hs', H.
    + pose proof (read_updateIndexSettled i o w' p NI) as Hu.
      unfold read in Hu. rewrite Hu, tasks_updateIndexSettled.
      split; [exact Hr | exact Hs'].
Qed.

Lemma settled_run (es : list (Clock * Event)) (w : World) (p x : jsstring) :
  p <> IndexGen.INDEX_PATH ->
  Forall (fun ce => ~ Spec.touches p (snd ce)) es ->
  Spec.settled p x w -> Spec.settled p x (run es w).
Proof.
  intros NI. unfold run. revert w.
  induction es as [|[clk e] es IH]; intros w F H; simpl; [exact H|].
  inversion F; subst. apply IH; [assumption|].
  apply settled_step; assumption.
Qed.

(** Read-your-writes does hold for a save that meets no sync of its path
    in flight: whatever happens next short of another save or a delete
    of the path, and however the remote calls settle, a read returns the
    saved content. *)
Lemma read_your_writes_without_overlap
    (category name content : jsstring) (w : World)
    (es : list (Clock * Event)) :
  JS.byteLength content <= MAX_FILE_SIZE ->
  (forall tid c, ~ In (tid, SyncPut (composePath category name) c) (tasks w)) ->
  Forall (fun ce => ~ Spec.touches (composePath category name) (snd ce)) es ->
  read (run es (snd (save category name content w)))
       (composePath category name) = Some content.
Proof.
  intros Hsize Hfree Hes.
  apply (settled_run es _ _ content (composePath_not_index category name) Hes).
  split.
  - unfold read.
    rewrite (proj2 (save_accepted category name content w Hsize)).
    reflexivity.
  - intros t c. unfold save. rewrite (size_accepted _ Hsize). cbn [snd].
    unfold syncToGitHub. cbn [pendingWrites withCache].
    destruct (JS.setHas _ _); cbn [tasks await withPending withCache].
    + intros H. destruct (Hfree _ _ H).
    + intros H. apply in_app_iff in H as [H | [H | []]].
      * destruct (Hfree _ _ H).
      * injection H as _ H. symmetry; exact H.
Qed.

End RaceFacts.

Section RaceClaims.
Import AsyncWriter.

(** C2, where the code departs from it.  Two saves of one path follow
    each other while the sync of the first is in flight; the second save
    launches no sync.  When the first [putFile] then succeeds, the sync
    writes the content it was started with back into the cache, and a
    read returns the first content, not the last one saved. *)
Theorem stale_sync_overwrites_newer_save :
  let clk := mkClock 1000 (str "2026-01-01T00:00:00.000Z") in
  let w2 :=
    run (R := EvalRuntime.runtime)
        [(clk, CallSave (str "test") (str "a.md") (str "v1"));
         (clk, CallSave (str "test") (str "a.md") (str "v2"))] initial in
  let w3 :=
    run (R := EvalRuntime.runtime)
        [(clk, Settle 0 (Fulfilled (str "s1")))] w2 in
  read w2 (str "test/a.md") = Some (str "v2")
  /\ tasks w2 = [(0%nat, SyncPut (str "test/a.md") (str "v1"))]
  /\ read w3 (str "test/a.md") = Some (str "v1").
Proof. vm_compute. repeat split. Qed.

End RaceClaims.

(** ** The durable queue *)
Section QueueFacts.
Import WriteQueue.

Lemma paths_withoutPath (q : t) (p : jsstring) :
  map path (withoutPath q p)
  = filter (fun k => negb (JS.eqb k p)) (map path q).
Proof.
  unfold withoutPath. induction q as [|i q IH]; [reflexivity|].
  simpl. destruct (JS.eqb (path i) p); simpl; rewrite IH; reflexivity.
Qed.

Lemma not_in_withoutPath (q : t) (p : jsstring) :
  ~ In p (map path (withoutPath q p)).
Proof.
  rewrite paths_withoutPath. intros H. apply filter_In in H as [_ H].
  rewrite eqb_refl in H. discriminate.
Qed.

Lemma onePerPath_withoutPath (q : t) (p : jsstring) :
  Spec.onePerPath q -> Spec.onePerPath (withoutPath q p).
Proof.
  unfold Spec.onePerPath. rewrite paths_withoutPath. apply NoDup_filter.
Qed.

Lemma onePerPath_enqueue (q : t) now (p c : jsstring) op :
  Spec.onePerPath q -> Spec.onePerPath (enqueue q now p c op).
Proof.
  intros H. unfold Spec.onePerPath, enqueue. rewrite map_app.
  apply NoDup_app.
  - apply onePerPath_withoutPath, H.
  - repeat constructor. intros [].
  - intros a Ha [<- | []]. exact (not_in_withoutPath q _ Ha).
Qed.

Lemma paths_bumpFirst (q : t) (p : jsstring) :
  map path (bumpFirst q p) = map path q.
Proof.
  induction q as [|i q IH]; [reflexivity|]. simpl.
  destruct (JS.eqb (path i) p); simpl; [reflexivity|]. rewrite IH; reflexivity.
Qed.

(** Dropping the items of a path forgets that one of them was bumped. *)
Lemma withoutPath_bumpFirst (q : t) (p : jsstring) :
  withoutPath (bumpFirst q p) p = withoutPath q p.
Proof.
  unfold withoutPath. induction q as [|i q IH]; [reflexivity|]. simpl.
  destruct (JS.eqb (path i) p) eqn:E; simpl; rewrite E; simpl;
    [reflexivity|]. rewrite IH; reflexivity.
Qed.

Lemma find_bumpFirst (q : t) (p : jsstring) (item : QueueItem) :
  find (Spec.forPath p) q = Some item ->
  find (Spec.forPath p) (bumpFirst q p)
  = Some (mkItem (path item) (content item) (operation item) (timestamp item)
                 (retryCount item + 1)).
Proof.
  unfold Spec.forPath. induction q as [|i q IH]; simpl; [discriminate|].
  destruct (JS.eqb (path i) p) eqn:E; simpl; rewrite E.
  - intros [= ->]. reflexivity.
  - exact IH.
Qed.

Lemma others_bumpFirst (q : t) (p p' : jsstring) :
  p' <> p ->
  filter (Spec.forPath p') (bumpFirst q p) = filter (Spec.forPath p') q.
Proof.
  intros N. unfold Spec.forPath. induction q as [|i q IH]; [reflexivity|].
  simpl. destruct (JS.eqb (path i) p) eqn:E; simpl.
  - apply eqb_eq in E. rewrite E.
    assert (JS.eqb p p' = false) as -> by (apply eqb_neq; congruence).
    reflexivity.
  - rewrite IH. reflexivity.
Qed.

Lemma find_withoutPath (q : t) (p : jsstring) :
  find (Spec.forPath p) (withoutPath q p) = None.
Proof.
  unfold Spec.forPath, withoutPath. induction q as [|i q IH]; [reflexivity|].
  simpl. destruct (JS.eqb (path i) p) eqn:E; simpl; [|rewrite E]; exact IH.
Qed.

Lemma incrementRetry_absent (q : t) (p : jsstring) :
  find (Spec.forPath p) q = None -> incrementRetry q p = (q, false).
Proof.
  unfold incrementRetry, Spec.forPath. intros ->. reflexivity.
Qed.

Lemma incrementRetry_exhausted (q : t) (p : jsstring) (item : QueueItem) :
  find (Spec.forPath p) q = Some item ->
  MAX_RETRIES <= retryCount item + 1 ->
  incrementRetry q p = (remove q p, false).
Proof.
  unfold incrementRetry, Spec.forPath, remove. intros -> H.
  apply Z.leb_le in H. rewrite H, withoutPath_bumpFirst. reflexivity.
Qed.

Lemma incrementRetry_kept (q : t) (p : jsstring) (item : QueueItem) :
  find (Spec.forPath p) q = Some item ->
  retryCount item + 1 < MAX_RETRIES ->
  incrementRetry q p = (bumpFirst q p, true).
Proof.
  unfold incrementRetry, Spec.forPath. intros -> H.
  apply Z.leb_gt in H. rewrite H. reflexivity.
Qed.

Lemma onePerPath_incrementRetry (q : t) (p : jsstring) :
  Spec.onePerPath q -> Spec.onePerPath (fst (incrementRetry q p)).
Proof.
  intros H. unfold incrementRetry.
  destruct (find _ q) as [item|]; [|exact H].
  destruct (MAX_RETRIES <=? retryCount item + 1); cbn [fst].
  - rewrite withoutPath_bumpFirst. apply onePerPath_withoutPath, H.
  - unfold Spec.onePerPath. rewrite paths_bumpFirst. exact H.
Qed.

Lemma onePerPath_call (q : t) (c : Spec.QueueCall) :
  Spec.onePerPath q -> Spec.onePerPath (Spec.call q c).
Proof.
  destruct c; simpl.
  - apply onePerPath_enqueue.
  - apply onePerPath_withoutPath.
  - apply onePerPath_incrementRetry.
Qed.

Lemma onePerPath_calls (cs : list Spec.QueueCall) (q : t) :
  Spec.onePerPath q -> Spec.onePerPath (Spec.calls q cs).
Proof.
  unfold Spec.calls. revert q.
  induction cs as [|c cs IH]; intros q H; simpl; [exact H|].
  apply IH, onePerPath_call, H.
Qed.

Lemma filter_forPath_withoutPath (q : t) (p : jsstring) :
  filter (Spec.forPath p) (withoutPath q p) = [].
Proof.
  unfold Spec.forPath, withoutPath. induction q as [|i q IH]; [reflexivity|].
  simpl. destruct (JS.eqb (path i) p) eqn:E; simpl; [|rewrite E]; exact IH.
Qed.

Lemma filter_other_withoutPath (q : t) (p p' : jsstring) :
  p' <> p ->
  filter (Spec.forPath p') (withoutPath q p) = filter (Spec.forPath p') q.
Proof.
  intros N. unfold Spec.forPath, withoutPath.
  induction q as [|i q IH]; [reflexivity|]. simpl.
  destruct (JS.eqb (path i) p) eqn:E; simpl.
  - apply eqb_eq in E. rewrite E.
    assert (JS.eqb p p' = false) as -> by (apply eqb_neq; congruence).
    exact IH.
  - rewrite IH. reflexivity.
Qed.

Lemma bounded_withoutPath (q : t) (p : jsstring) :
  Spec.retriesBounded q -> Spec.retriesBounded (withoutPath q p).
Proof.
  unfold Spec.retriesBounded, withoutPath. rewrite !Forall_forall.
  intros H i Hi. apply filter_In in Hi as [Hi _]. auto.
Qed.

Lemma bounded_bumpFirst (q : t) (p : jsstring) (item : QueueItem) :
  find (Spec.forPath p) q = Some item ->
  retryCount item + 1 < MAX_RETRIES ->
  Spec.retriesBounded q -> Spec.retriesBounded (bumpFirst q p).
Proof.
  unfold Spec.retriesBounded, Spec.forPath.
  induction q as [|i q IH]; simpl; [discriminate|].
  intros F B H. inversion H as [|? ? Hi Hq]; subst.
  destruct (JS.eqb (path i) p) eqn:E.
  - injection F as ->. constructor; [exact B | exact Hq].
  - constructor; [exact Hi | auto].
Qed.

Lemma bounded_incrementRetry (q : t) (p : jsstring) :
  Spec.retriesBounded q -> Spec.retriesBounded (fst (incrementRetry q p)).
Proof.
  intros H. unfold incrementRetry.
  destruct (find _ q) as [item|] eqn:F; [|exact H].
  destruct (Z.leb_spec MAX_RETRIES (retryCount item + 1)); cbn [fst].
  - rewrite withoutPath_bumpFirst. apply bounded_withoutPath, H.
  - apply (bounded_bumpFirst q p item F); assumption.
Qed.

Lemma bounded_call (q : t) (c : Spec.QueueCall) :
  Spec.retriesBounded q -> Spec.retriesBounded (Spec.call q c).
Proof.
  destruct c; simpl.
  - intros H. unfold enqueue, Spec.retriesBounded. apply Forall_app. split.
    + apply bounded_withoutPath, H.
    + repeat constructor.
  - apply bounded_withoutPath.
  - apply bounded_incrementRetry.
Qed.

Lemma bounded_calls (cs : list Spec.QueueCall) (q : t) :
  Spec.retriesBounded q -> Spec.retriesBounded (Spec.calls q cs).
Proof.
  unfold Spec.calls. revert q.
  induction cs as [|c cs IH]; intros q H; simpl; [exact H|].
  apply IH, bounded_call, H.
Qed.

End QueueFacts.

Section QueueClaims.
Import WriteQueue.

(** C4.  A queue with at most one item per path keeps that through every
    sequence of [enqueue], [remove] and [incrementRetry], and the empty
    queue has it.  On any queue, [enqueue] drops the items of the path and
    appends a fresh item with retry count 0: afterwards that item is the
    only one for the path, and the items of other paths are as before. *)
Theorem queue_one_item_per_path :
  (forall q cs, Spec.onePerPath q -> Spec.onePerPath (Spec.calls q cs))
  /\ (forall cs, Spec.onePerPath (Spec.calls [] cs))
  /\ (forall q now p c op,
        enqueue q now p c op
        = filter (fun i => negb (Spec.forPath p i)) q ++ [mkItem p c op now 0]
        /\ filter (Spec.forPath p) (enqueue q now p c op)
           = [mkItem p c op now 0]
        /\ (forall p', p' <> p ->
              filter (Spec.forPath p') (enqueue q now p c op)
              = filter (Spec.forPath p') q)).
Proof.
  split; [intros q cs; apply onePerPath_calls|].
  split; [intros cs; apply onePerPath_calls; constructor|].
  intros q now p c op. split; [reflexivity|]. unfold enqueue. split.
  - rewrite filter_app, filter_forPath_withoutPath. simpl.
    unfold Spec.forPath; simpl. rewrite eqb_refl. reflexivity.
  - intros p' N. rewrite filter_app, filter_other_withoutPath by exact N.
    simpl. unfold Spec.forPath at 2; simpl.
    assert (JS.eqb p p' = false) as -> by (apply eqb_neq; congruence).
    apply app_nil_r.
Qed.

(** C5.  [incrementRetry] on a path without item returns false and leaves
    the queue.  Otherwise it adds one to the retry count of the item: when
    the count then reaches 3 the path has no item any more and the call
    returns false; below 3 the item stays with the count raised by one,
    the other items are untouched, and the call returns true.  So every
    item of a [getAll] snapshot has a retry count below 3, initially and
    after every queue operation. *)
Theorem retry_bound :
  (forall q p,
      find (Spec.forPath p) q = None -> incrementRetry q p = (q, false))
  /\ (forall q p item,
        find (Spec.forPath p) q = Some item ->
        MAX_RETRIES <= retryCount item + 1 ->
        incrementRetry q p = (remove q p, false)
        /\ find (Spec.forPath p) (getAll (fst (incrementRetry q p))) = None)
  /\ (forall q p item,
        find (Spec.forPath p) q = Some item ->
        retryCount item + 1 < MAX_RETRIES ->
        snd (incrementRetry q p) = true
        /\ find (Spec.forPath p) (getAll (fst (incrementRetry q p)))
           = Some (mkItem (path item) (content item) (operation item)
                          (timestamp item) (retryCount item + 1))
        /\ map path (fst (incrementRetry q p)) = map path q
        /\ (forall p', p' <> p ->
              filter (Spec.forPath p') (fst (incrementRetry q p))
              = filter (Spec.forPath p') q))
  /\ MAX_RETRIES = 3
  /\ (forall q cs,
        Spec.retriesBounded q -> Spec.retriesBounded (getAll (Spec.calls q cs)))
  /\ (forall cs, Spec.retriesBounded (getAll (Spec.calls [] cs))).
Proof.
  split; [exact incrementRetry_absent|].
  split.
  { intros q p item F H. rewrite (incrementRetry_exhausted q p item F H).
    split; [reflexivity|]. apply find_withoutPath. }
  split.
  { intros q p item F H. rewrite (incrementRetry_kept q p item F H).
    cbn [fst snd]. split; [reflexivity|].
    split; [apply find_bumpFirst, F|].
    split; [apply paths_bumpFirst|].
    intros p' N. apply others_bumpFirst, N. }
  split; [reflexivity|].
  split; [intros q cs; apply bounded_calls|].
  intros cs. apply bounded_calls. constructor.
Qed.

End QueueClaims.

(** ** The default sort *)
Section SortFacts.

Lemma leb_total (a b : jsstring) : JS.leb a b = true \/ JS.leb b a = true.
Proof.
  revert b; induction a as [|x a IH]; intros [|y b]; simpl; auto.
  destruct (N.compare_spec x y) as [E|L|G].
  - subst. rewrite N.eqb_refl, N.ltb_irrefl. simpl. apply IH.
  - left. apply N.ltb_lt in L. rewrite L. reflexivity.
  - right. apply N.ltb_lt in G. rewrite G. reflexivity.
Qed.

Lemma leb_trans (a b c : jsstring) :
  JS.leb a b = true -> JS.leb b c = true -> JS.leb a c = true.
Proof.
  revert b c; induction a as [|x a IH]; intros [|y b] [|z c]; simpl;
    try discriminate; auto.
  rewrite !orb_true_iff, !andb_true_iff, !N.ltb_lt, !N.eqb_eq.
  intros [L1 | [E1 H1]] [L2 | [E2 H2]]; subst.
  - left; lia.
  - left; exact L1.
  - left; exact L2.
  - right. split; [reflexivity | eapply IH; eauto].
Qed.

Lemma In_insert {A} (le : A -> A -> bool) (x y : A) (l : list A) :
  In y (JS.insert le x l) <-> y = x \/ In y l.
Proof.
  induction l as [|z l IH]; simpl.
  - intuition.
  - destruct (le x z); simpl; rewrite ?IH; intuition.
Qed.

Lemma In_sortBy {A} (le : A -> A -> bool) (y : A) (l : list A) :
  In y (JS.sortBy le l) <-> In y l.
Proof.
  induction l as [|x l IH]; simpl; [tauto|].
  rewrite In_insert, IH. intuition.
Qed.

Lemma NoDup_insert {A} (le : A -> A -> bool) (x : A) (l : list A) :
  ~ In x l -> NoDup l -> NoDup (JS.insert le x l).
Proof.
  induction l as [|z l IH]; simpl; intros N D.
  - repeat constructor. intros [].
  - destruct (le x z).
    + constructor; [simpl; exact N | exact D].
    + inversion D as [|? ? Nz Dl]; subst. constructor.
      * rewrite In_insert. intros [-> | H]; [apply N; left; reflexivity|].
        contradiction.
      * apply IH; [intros H; apply N; right; exact H | exact Dl].
Qed.

Lemma NoDup_sortBy {A} (le : A -> A -> bool) (l : list A) :
  NoDup l -> NoDup (JS.sortBy le l).
Proof.
  induction l as [|x l IH]; simpl; intros D; [constructor|].
  inversion D; subst. apply NoDup_insert; [rewrite In_sortBy|]; auto.
Qed.

Lemma sorted_insert (x : jsstring) (l : list jsstring) :
  Sorted (fun a b => JS.leb a b = true) l ->
  Sorted (fun a b => JS.leb a b = true) (JS.insert JS.leb x l).
Proof.
  induction l as [|y l IH]; simpl; intros S.
  - repeat constructor.
  - destruct (JS.leb x y) eqn:E.
    + constructor; [exact S | constructor; exact E].
    + assert (Hyx : JS.leb y x = true)
        by (destruct (leb_total x y); congruence).
      inversion S as [|? ? Sl Hd]; subst. constructor; [apply IH, Sl|].
      destruct l as [|z l]; simpl.
      * constructor; exact Hyx.
      * destruct (JS.leb x z); constructor; [exact Hyx|].
        inversion Hd; assumption.
Qed.

Lemma sorted_sort (l : list jsstring) :
  Sorted (fun a b => JS.leb a b = true) (JS.sort l).
Proof.
  unfold JS.sort, JS.sortBy.
  induction l as [|x l IH]; simpl; [constructor | apply sorted_insert, IH].
Qed.

(** Sorted without repetition is strictly increasing. *)
Lemma sort_strict (l : list jsstring) :
  NoDup l -> StronglySorted Spec.lexLt (JS.sort l).
Proof.
  intros D. apply (NoDup_sortBy JS.leb) in D. fold (JS.sort l) in D.
  pose proof (sorted_sort l) as S.
  apply Sorted_StronglySorted in S;
    [|intros a b c; apply leb_trans].
  induction S as [|a m Sm IH Fa]; [constructor|].
  inversion D as [|? ? Na Dm]; subst. constructor; [apply IH, Dm|].
  rewrite Forall_forall in *. intros b Hb. split; [apply Fa, Hb|].
  intros ->. contradiction.
Qed.

End SortFacts.

(** ** Sets and path segments *)
Section SegmentFacts.

Lemma setHas_In (s : JS.StringSet) (x : jsstring) :
  JS.setHas s x = true <-> In x s.
Proof.
  unfold JS.setHas. rewrite existsb_exists. split.
  - intros [y [Hy E]]. apply eqb_eq in E. subst; exact Hy.
  - intros H. exists x. split; [exact H | apply eqb_refl].
Qed.

Lemma In_setAdd (s : JS.StringSet) (x y : jsstring) :
  In y (JS.setAdd s x) <-> y = x \/ In y s.
Proof.
  unfold JS.setAdd. destruct (JS.setHas s x) eqn:E.
  - apply setHas_In in E. split; [auto | intros [-> | H]; assumption].
  - rewrite in_app_iff. simpl. intuition.
Qed.

Lemma NoDup_setAdd (s : JS.StringSet) (x : jsstring) :
  NoDup s -> NoDup (JS.setAdd s x).
Proof.
  intros D. unfold JS.setAdd. destruct (JS.setHas s x) eqn:E; [exact D|].
  apply NoDup_app; [exact D | repeat constructor; intros [] |].
  intros a Ha [<- | []]. apply setHas_In in Ha. congruence.
Qed.

Lemma split_nonempty (s : jsstring) (sep : N) : JS.split s sep <> [].
Proof.
  induction s as [|c s IH]; simpl; [discriminate|].
  destruct (N.eqb c sep); [discriminate|].
  destruct (JS.split s sep); [contradiction | discriminate].
Qed.

(** A path has more than one segment exactly when it holds a separator. *)
Lemma split_several (s : jsstring) (sep : N) :
  (1 <? Z.of_nat (List.length (JS.split s sep))) = true <-> In sep s.
Proof.
  rewrite Z.ltb_lt. induction s as [|c s IH]; simpl.
  - split; [lia | intros []].
  - destruct (N.eqb_spec c sep) as [E|N].
    + pose proof (split_nonempty s sep).
      destruct (JS.split s sep); [contradiction|]. simpl. split; [auto | lia].
    + pose proof (split_nonempty s sep) as NE.
      destruct (JS.split s sep) as [|seg segs] eqn:S; [contradiction|].
      simpl in *. rewrite IH. split; [auto | intros [E | Hin]; congruence].
Qed.

End SegmentFacts.

(** ** [MemoryCache.categories] *)
Section CategoryClaims.

(** The set that the loop of [categories] builds from the keys [ks],
    starting from [acc]. *)
Lemma categories_loop (ks : list jsstring) (acc : JS.StringSet) :
  NoDup acc ->
  let out :=
    fold_left
      (fun (acc : JS.StringSet) path =>
         let parts := JS.split path 47%N in
         if 1 <? Z.of_nat (List.length parts) then JS.setAdd acc (hd [] parts)
         else acc) ks acc in
  NoDup out
  /\ forall s, In s out <->
               In s acc
               \/ exists p, In p ks /\ In 47%N p /\ s = Spec.firstSegment p.
Proof.
  revert acc; induction ks as [|k ks IH]; intros acc D; simpl.
  - split; [exact D|]. intros s. split; [auto | intros [H | (p & [] & _)]; exact H].
  - destruct (1 <? Z.of_nat (List.length (JS.split k 47%N))) eqn:E.
    + apply split_several in E.
      destruct (IH _ (NoDup_setAdd acc (hd [] (JS.split k 47%N)) D)) as [D' M].
      split; [exact D'|]. intros s. rewrite M, In_setAdd. split.
      * intros [[-> | H] | (p & Hp & Hs & ->)].
        -- right. exists k. auto.
        -- left; exact H.
        -- right. exists p. auto.
      * intros [H | (p & [<- | Hp] & Hs & ->)].
        -- left; right; exact H.
        -- left; left; reflexivity.
        -- right. exists p. auto.
    + assert (~ In 47%N k) as NS
        by (rewrite <- split_several; congruence).
      destruct (IH _ D) as [D' M]. split; [exact D'|]. intros s. rewrite M.
      split.
      * intros [H | (p & Hp & Hs & ->)].
        -- left; exact H.
        -- right. exists p. auto.
      * intros [H | (p & [<- | Hp] & Hs & ->)].
        -- left; exact H.
        -- contradiction.
        -- right. exists p. auto.
Qed.

(** C3, as amended.  [categories] returns, without repetition and in
    increasing code unit order, the first segments of the cached keys
    that hold a slash; a key without slash contributes nothing. *)
Theorem categories_sorted_folders (c : MemoryCache.t) :
  StronglySorted Spec.lexLt (MemoryCache.categories c)
  /\ forall s, In s (MemoryCache.categories c) <->
               exists p, In p (MemoryCache.keys c) /\ In 47%N p
                         /\ s = Spec.firstSegment p.
Proof.
  unfold MemoryCache.categories.
  destruct (categories_loop (MemoryCache.keys c) [] (NoDup_nil _)) as [D M].
  cbv zeta in D, M. split.
  - apply sort_strict, D.
  - intros s. unfold JS.sort. rewrite In_sortBy, M. split.
    + intros [[] | H]; exact H.
    + auto.
Qed.

(** C3 as stated fails: the key "index.json" has no slash, its first
    segment is the key itself, and [categories] lists neither that
    segment nor "root". *)
Lemma categories_omits_slashless_keys :
  let c := [(str "index.json", MemoryCache.mkEntry (str "{}") (str "1f"));
            (str "test/a.md", MemoryCache.mkEntry (str "# A") (str "2e"))] in
  MemoryCache.categories c = [str "test"]
  /\ Spec.firstSegmentsOfAllKeys c = [str "index.json"; str "test"]
  /\ MemoryCache.categories c <> Spec.firstSegmentsOfAllKeys c
  /\ ~ In (str "root") (MemoryCache.categories c).
Proof.
  vm_compute. repeat split; try discriminate.
  intros [H | []]; discriminate.
Qed.

End CategoryClaims.

(** ** [MemoryCache.extractSnippet] and [MemoryCache.search] *)
Section SnippetClaims.
Context {R : Runtime}.

(** [indexOf] finds the first offset at which the pattern occurs. *)
Lemma indexOfFrom_first (s pat : jsstring) (k : Z) :
  (JS.indexOfFrom s pat k = -1
   /\ forall j, JS.startsWith (skipn j s) pat = false)
  \/ exists j : nat,
       JS.indexOfFrom s pat k = k + Z.of_nat j
       /\ (j <= List.length s)%nat
       /\ JS.startsWith (skipn j s) pat = true
       /\ forall j', (j' < j)%nat -> JS.startsWith (skipn j' s) pat = false.
Proof.
  revert k; induction s as [|c s IH]; intros k; cbn [JS.indexOfFrom].
  - destruct (JS.startsWith [] pat) eqn:E.
    + right. exists 0%nat. simpl. repeat split; [lia | lia | exact E | lia].
    + left. split; [reflexivity|]. intros j. rewrite skipn_nil. exact E.
  - destruct (JS.startsWith (c :: s) pat) eqn:E.
    + right. exists 0%nat. simpl. repeat split; [lia | lia | exact E | lia].
    + destruct (IH (k + 1)) as [[H1 H2] | (j & H1 & H2 & H3 & H4)].
      * left. split; [exact H1|]. intros [|j]; [exact E | apply H2].
      * right. exists (S j). repeat split; [lia | simpl; lia | exact H3 |].
        intros [|j'] Hj; [exact E | apply H4; lia].
Qed.

Lemma indexOf_range (s pat : jsstring) :
  JS.indexOf s pat = -1 \/ 0 <= JS.indexOf s pat.
Proof.
  unfold JS.indexOf.
  destruct (indexOfFrom_first s pat 0) as [[H _] | (j & H & _)];
    [left; exact H | right; lia].
Qed.

(** The snippet [extractSnippet] gives, called as [search] calls it
    (without an offset, or with the offset [search] found), is the
    snippet at the offset where the lowercased query first occurs in the
    lowercased content. *)
Lemma extractSnippet_at_offset
    (content query : jsstring) (matchIndex : option Z) :
  matchIndex = None
  \/ (matchIndex = Some (JS.indexOf (toLowerCase content) (toLowerCase query))
      /\ JS.indexOf (toLowerCase content) (toLowerCase query) <> -1) ->
  MemoryCache.extractSnippet content query matchIndex
  = Spec.snippetAt content query
      (JS.indexOf (toLowerCase content) (toLowerCase query)).
Proof.
  intros Hm. unfold MemoryCache.extractSnippet, Spec.snippetAt.
  destruct (Z.leb_spec (JS.length content) 150) as [Hle|Hgt]; [reflexivity|].
  set (i := JS.indexOf (toLowerCase content) (toLowerCase query)) in *.
  replace (match matchIndex with Some i0 => i0 | None => i end) with i
    by (destruct Hm as [-> | [-> _]]; reflexivity).
  pose proof (length_nonneg query) as Hq.
  destruct (Z.eqb_spec i (-1)) as [E|N].
  - rewrite slice_prefix by lia. reflexivity.
  - pose proof (indexOf_range (toLowerCase content) (toLowerCase query)) as Hi.
    fold i in Hi.
    rewrite slice_window by lia.
    destruct (0 <? Z.max 0 (i - 50));
      destruct (Z.min (JS.length content) (i + JS.length query + 100)
                <? JS.length content);
      rewrite ?app_nil_r, <- ?app_assoc; reflexivity.
Qed.

Lemma startsWith_firstn (a b : jsstring) :
  JS.startsWith a b
  = (List.length b <=? List.length a)%nat && JS.eqb (firstn (List.length b) a) b.
Proof.
  revert a; induction b as [|p b IH]; intros a.
  - rewrite startsWith_nil. reflexivity.
  - destruct a as [|c a]; [reflexivity|].
    cbn [JS.startsWith List.length firstn JS.eqb Nat.leb].
    rewrite IH, (N.eqb_sym p c).
    destruct (N.eqb c p); destruct (List.length b <=? List.length a)%nat;
      reflexivity.
Qed.

Lemma Forall_firstn_ascii (n : nat) (s : jsstring) :
  Forall (fun c => (c < 128)%N) s ->
  Forall (fun c => (c < 128)%N) (firstn n s).
Proof.
  intros H. revert n. induction H as [|c s Hc _ IH]; intros n.
  - rewrite firstn_nil. constructor.
  - destruct n as [|n]; simpl; [constructor|].
    constructor; [exact Hc | apply IH].
Qed.

(** On ASCII text a case-insensitive occurrence at the start is a match
    of the lowercased query at the start of the lowercased text. *)
Lemma occursHere_ascii (s query : jsstring) :
  Forall (fun c => (c < 128)%N) s ->
  Forall (fun c => (c < 128)%N) query ->
  Spec.occursHere s query
  = JS.startsWith (map JS.asciiLower s) (map JS.asciiLower query).
Proof.
  intros Hs Hq. unfold Spec.occursHere.
  rewrite (toLowerCase_ascii _ (Forall_firstn_ascii _ _ Hs)).
  rewrite (toLowerCase_ascii _ Hq).
  rewrite startsWith_firstn, !length_map, firstn_map. reflexivity.
Qed.

Lemma firstOccurrenceFrom_ascii (s query : jsstring) (i : Z) :
  Forall (fun c => (c < 128)%N) s ->
  Forall (fun c => (c < 128)%N) query ->
  JS.indexOfFrom (map JS.asciiLower s) (map JS.asciiLower query) i
  = Spec.firstOccurrenceFrom s query i.
Proof.
  intros Hs Hq. revert i. induction Hs as [|c s Hc Hs IH]; intros i.
  - cbn [map JS.indexOfFrom Spec.firstOccurrenceFrom].
    rewrite (occursHere_ascii [] query (Forall_nil _) Hq). reflexivity.
  - cbn [Spec.firstOccurrenceFrom].
    rewrite (occursHere_ascii (c :: s) query
               (@Forall_cons _ (fun c => (c < 128)%N) c s Hc Hs) Hq).
    cbn [map JS.indexOfFrom]. rewrite IH. reflexivity.
Qed.

(** On ASCII text the offset the code computes is that of the first
    case-insensitive occurrence of the query in the content. *)
Lemma indexOf_first_occurrence_ascii (content query : jsstring) :
  Forall (fun c => (c < 128)%N) content ->
  Forall (fun c => (c < 128)%N) query ->
  JS.indexOf (toLowerCase content) (toLowerCase query)
  = Spec.firstOccurrence content query.
Proof.
  intros Hc Hq. rewrite (toLowerCase_ascii _ Hc), (toLowerCase_ascii _ Hq).
  apply firstOccurrenceFrom_ascii; assumption.
Qed.

(** On ASCII text [extractSnippet] gives the snippet of the
    specification, around the first case-insensitive occurrence. *)
Lemma extractSnippet_ascii
    (content query : jsstring) (matchIndex : option Z) :
  Forall (fun c => (c < 128)%N) content ->
  Forall (fun c => (c < 128)%N) query ->
  matchIndex = None
  \/ (matchIndex = Some (JS.indexOf (toLowerCase content) (toLowerCase query))
      /\ JS.indexOf (toLowerCase content) (toLowerCase query) <> -1) ->
  MemoryCache.extractSnippet content query matchIndex
  = Spec.snippet content query.
Proof.
  intros Hc Hq Hm. rewrite (extractSnippet_at_offset _ _ _ Hm).
  unfold Spec.snippet. rewrite indexOf_first_occurrence_ascii by assumption.
  reflexivity.
Qed.

Lemma toLowerCase_nil : toLowerCase [] = [].
Proof. rewrite toLowerCase_ascii; [reflexivity | constructor]. Qed.

Lemma extractSnippet_empty_query (content : jsstring) :
  MemoryCache.extractSnippet content [] None
  = if JS.length content <=? 150 then content
    else firstn 100 content ++ str "...".
Proof.
  unfold MemoryCache.extractSnippet.
  destruct (Z.leb_spec (JS.length content) 150) as [Hle|Hgt]; [reflexivity|].
  rewrite toLowerCase_nil, indexOf_nil.
  change (0 =? -1) with false. change (JS.length []) with 0. cbv iota.
  change (Z.max 0 (0 - 50)) with 0. change (0 + 0 + 100) with 100.
  rewrite Z.min_r by lia. rewrite slice_prefix by lia.
  change (0 <? 0) with false. cbv iota.
  destruct (Z.ltb_spec 100 (JS.length content)); [reflexivity | lia].
Qed.

(** C10.  The empty query matches every record on its path: [search]
    returns one result per record, in the order of the cache, whose
    snippet is the content when it has at most 150 characters and
    otherwise its first 100 characters followed by "...". *)
Theorem search_empty_query (c : MemoryCache.t) :
  MemoryCache.search c []
  = map (fun kv : jsstring * MemoryCache.CacheEntry =>
           let content := MemoryCache.content (snd kv) in
           MemoryCache.mkResult (fst kv)
             (if JS.length content <=? 150 then content
              else firstn 100 content ++ str "..."))
        (MemoryCache.entries c).
Proof.
  unfold MemoryCache.search, MemoryCache.entries. rewrite toLowerCase_nil.
  induction c as [|[p e] c IH]; [reflexivity|].
  cbn [flat_map map fst snd]. rewrite includes_nil, IH.
  rewrite extractSnippet_empty_query. reflexivity.
Qed.

End SnippetClaims.

Section SnippetDivergence.

(** C6, where the code departs from it.  The content is U+0130 a hundred
    times, sixty "x", "needle" and three hundred "y"; the query "needle"
    first occurs at offset 160.  Lowercasing turns each U+0130 into two
    code units, so [extractSnippet] finds the query at offset 260 of the
    lowercased content and cuts the original content there: its snippet
    is the "y" from 210 to 366 between two "...", without the query,
    where the snippet of the specification runs from 110 to 266 around
    it.  [search] returns the same snippet for a record of that
    content. *)
Theorem snippet_misses_match_after_lengthening :
  let content :=
    repeat 304%N 100 ++ repeat 120%N 60 ++ str "needle" ++ repeat 121%N 300 in
  let query := str "needle" in
  Spec.firstOccurrence (R := DottedRuntime.runtime) content query = 160
  /\ JS.indexOf (toLowerCase (Runtime := DottedRuntime.runtime) content)
                (toLowerCase (Runtime := DottedRuntime.runtime) query) = 260
  /\ MemoryCache.extractSnippet (R := DottedRuntime.runtime) content query None
     = str "..." ++ repeat 121%N 156 ++ str "..."
  /\ Spec.snippet (R := DottedRuntime.runtime) content query
     = str "..." ++ repeat 120%N 50 ++ str "needle" ++ repeat 121%N 100
       ++ str "..."
  /\ MemoryCache.extractSnippet (R := DottedRuntime.runtime) content query None
     <> Spec.snippet (R := DottedRuntime.runtime) content query
  /\ MemoryCache.search (R := DottedRuntime.runtime)
       [(str "notes/a.md", MemoryCache.mkEntry content (str "2e"))] query
     = [MemoryCache.mkResult (str "notes/a.md")
          (str "..." ++ repeat 121%N 156 ++ str "...")].
Proof.
  vm_compute. repeat split; discriminate.
Qed.

End SnippetDivergence.

(* ================================================================== *)
(** * Part IV: the properties on concrete inputs *)
(* ================================================================== *)

Section Instances.
Import AsyncWriter.

(** C1 as stated fails where the path is already cached with a real
    token: after [save] the record holds the new content under the old
    token, not under "pending". *)
Lemma save_overwrite_keeps_real_token :
  JS.byteLength (str "new") <= MAX_FILE_SIZE
  /\ MemoryCache.get
       (cache (snd (save (R := EvalRuntime.runtime)
                         (str "test") (str "a.md") (str "new")
                         (withCache
                            [(str "test/a.md",
                              MemoryCache.mkEntry (str "old") (str "3b18e5"))]
                            initial))))
       (str "test/a.md")
     = Some (MemoryCache.mkEntry (str "new") (str "3b18e5"))
  /\ MemoryCache.mkEntry (str "new") (str "3b18e5")
     <> MemoryCache.mkEntry (str "new") (str "pending").
Proof.
  vm_compute. split; [discriminate|]. split; [reflexivity | discriminate].
Qed.

Lemma save_caches_content_keeps_token_witness :
  JS.byteLength (str "# Test") <= MAX_FILE_SIZE
  /\ MemoryCache.get
       (cache (snd (save (R := EvalRuntime.runtime)
                         (str "test") (str "sample.md") (str "# Test") initial)))
       (str "test/sample.md")
     = Some (MemoryCache.mkEntry (str "# Test") (str "pending")).
Proof.
  assert (H : JS.byteLength (str "# Test") <= MAX_FILE_SIZE)
    by (vm_compute; discriminate).
  split; [exact H|].
  exact (proj1 (proj2 (save_caches_content_keeps_token
                         (R := EvalRuntime.runtime)
                         (str "test") (str "sample.md") (str "# Test")
                         initial H))).
Defined.

Lemma save_rejects_oversized_witness :
  MAX_FILE_SIZE < JS.byteLength (repeat 97%N (Z.to_nat 1048577))
  /\ save (R := EvalRuntime.runtime) (str "test") (str "big.md")
          (repeat 97%N (Z.to_nat 1048577)) initial
     = (mkSaveResult false []
          (Some (str "File size ("
                 ++ JS.ofNumber
                      (JS.roundDiv
                         (JS.byteLength (repeat 97%N (Z.to_nat 1048577))) 1024)
                 ++ str "KB) exceeds maximum allowed size (1024KB)")),
        initial).
Proof.
  assert (H : MAX_FILE_SIZE < JS.byteLength (repeat 97%N (Z.to_nat 1048577))).
  { rewrite byteLength_repeat_ascii by reflexivity.
    rewrite Z2Nat.id by lia. reflexivity. }
  split; [exact H|].
  apply (save_rejects_oversized (R := EvalRuntime.runtime)). exact H.
Defined.

Lemma save_path_composition_witness :
  JS.byteLength (str "# Notes") <= MAX_FILE_SIZE
  /\ path (fst (save (R := EvalRuntime.runtime)
                     (str "My Project!") (str "notes") (str "# Notes") initial))
     = str "my-project-/notes.md".
Proof.
  assert (H : JS.byteLength (str "# Notes") <= MAX_FILE_SIZE)
    by (vm_compute; discriminate).
  split; [exact H|].
  exact (proj1 (save_path_composition
                  (R := EvalRuntime.runtime)
                  (str "My Project!") (str "notes") (str "# Notes")
                  initial H)).
Defined.

Lemma drain_empty_queue_is_noop_witness :
  WriteQueue.getAll
    (writeQueue
       (withCache [(str "test/a.md", MemoryCache.mkEntry (str "# A") (str "2e"))]
                  initial)) = []
  /\ drainQueue (R := EvalRuntime.runtime)
       (mkClock 1000 (str "2026-01-01T00:00:00.000Z"))
       (withCache [(str "test/a.md", MemoryCache.mkEntry (str "# A") (str "2e"))]
                  initial)
     = withCache [(str "test/a.md", MemoryCache.mkEntry (str "# A") (str "2e"))]
                 initial.
Proof.
  split; [reflexivity|].
  exact (proj1 (drain_empty_queue_is_noop
                  (R := EvalRuntime.runtime)
                  (mkClock 1000 (str "2026-01-01T00:00:00.000Z"))
                  (withCache
                     [(str "test/a.md",
                       MemoryCache.mkEntry (str "# A") (str "2e"))]
                     initial)
                  eq_refl)).
Defined.

Lemma queue_one_item_per_path_witness :
  Spec.onePerPath
    [WriteQueue.mkItem (str "a/x.md") (str "1") WriteQueue.save 10 0;
     WriteQueue.mkItem (str "b/y.md") [] WriteQueue.delete 11 1]
  /\ Spec.onePerPath
       (Spec.calls
          [WriteQueue.mkItem (str "a/x.md") (str "1") WriteQueue.save 10 0;
           WriteQueue.mkItem (str "b/y.md") [] WriteQueue.delete 11 1]
          [Spec.Enqueue 12 (str "a/x.md") (str "2") WriteQueue.save;
           Spec.IncrementRetry (str "b/y.md");
           Spec.Remove (str "c/z.md")]).
Proof.
  assert (H : Spec.onePerPath
                [WriteQueue.mkItem (str "a/x.md") (str "1") WriteQueue.save 10 0;
                 WriteQueue.mkItem (str "b/y.md") [] WriteQueue.delete 11 1]).
  { unfold Spec.onePerPath. simpl. constructor.
    - intros [E | []]. discriminate E.
    - constructor; [intros [] | constructor]. }
  split; [exact H|].
  exact (proj1 queue_one_item_per_path _ _ H).
Defined.

Lemma retry_bound_witness :
  Spec.retriesBounded
    [WriteQueue.mkItem (str "a/x.md") (str "1") WriteQueue.save 10 0;
     WriteQueue.mkItem (str "b/y.md") [] WriteQueue.delete 11 2]
  /\ Spec.retriesBounded
       (WriteQueue.getAll
          (Spec.calls
             [WriteQueue.mkItem (str "a/x.md") (str "1") WriteQueue.save 10 0;
              WriteQueue.mkItem (str "b/y.md") [] WriteQueue.delete 11 2]
             [Spec.IncrementRetry (str "a/x.md");
              Spec.IncrementRetry (str "b/y.md")])).
Proof.
  assert (H : Spec.retriesBounded
                [WriteQueue.mkItem (str "a/x.md") (str "1") WriteQueue.save 10 0;
                 WriteQueue.mkItem (str "b/y.md") [] WriteQueue.delete 11 2]).
  { unfold Spec.retriesBounded. repeat constructor. }
  split; [exact H|].
  exact (proj1 (proj2 (proj2 (proj2 (proj2 retry_bound)))) _ _ H).
Defined.

End Instances.

(* ================================================================== *)
(** * Part V: further properties of the code *)
(* ================================================================== *)

(** ** The cache *)
Section CacheProperties.
Context {R : Runtime}.

Lemma has_In (c : MemoryCache.t) (p : jsstring) :
  MemoryCache.has c p = true <-> In p (MemoryCache.keys c).
Proof.
  unfold MemoryCache.has, MemoryCache.keys.
  induction c as [|[k e] c IH]; simpl.
  - split; [discriminate | intros []].
  - destruct (JS.eqb k p) eqn:E.
    + apply eqb_eq in E. split; auto.
    + apply eqb_neq in E. rewrite IH. split; [auto | intros [H | H]; congruence].
Qed.

(** X1.  A lookup after [set] gives the record just written for that
    path and what was there before for every other path. *)
Theorem cache_get_after_set (c : MemoryCache.t) (p q x s : jsstring) :
  MemoryCache.get (MemoryCache.set c p x s) q
  = if JS.eqb p q then Some (MemoryCache.mkEntry x s) else MemoryCache.get c q.
Proof.
  destruct (JS.eqb p q) eqn:E.
  - apply eqb_eq in E. subst q. apply get_set_same.
  - apply eqb_neq in E. apply get_set_other, E.
Qed.

(** X2.  [set] keeps the order of insertion: a key that is cached keeps
    its place and the size, a new key goes to the end and adds one; and
    keys that were distinct stay distinct. *)
Theorem cache_set_keeps_order (c : MemoryCache.t) (p x s : jsstring) :
  MemoryCache.keys (MemoryCache.set c p x s)
  = (if MemoryCache.has c p then MemoryCache.keys c
     else MemoryCache.keys c ++ [p])
  /\ MemoryCache.size (MemoryCache.set c p x s)
     = MemoryCache.size c + (if MemoryCache.has c p then 0 else 1)
  /\ (NoDup (MemoryCache.keys c) ->
      NoDup (MemoryCache.keys (MemoryCache.set c p x s))).
Proof.
  assert (K : MemoryCache.keys (MemoryCache.set c p x s)
              = if MemoryCache.has c p then MemoryCache.keys c
                else MemoryCache.keys c ++ [p]).
  { destruct (MemoryCache.has c p) eqn:H.
    - apply keys_set_present, H.
    - apply keys_set_absent, H. }
  split; [exact K|]. split.
  - unfold MemoryCache.size.
    rewrite <- (length_map fst (MemoryCache.set c p x s)).
    rewrite <- (length_map fst c).
    fold (MemoryCache.keys (MemoryCache.set c p x s)). fold (MemoryCache.keys c).
    rewrite K. destruct (MemoryCache.has c p); [lia|].
    rewrite length_app. simpl. lia.
  - intros D. rewrite K. destruct (MemoryCache.has c p) eqn:H; [exact D|].
    apply NoDup_app; [exact D | repeat constructor; intros [] |].
    intros a Ha [<- | []]. apply has_In in Ha. congruence.
Qed.

Lemma cache_set_keeps_order_witness :
  NoDup (MemoryCache.keys
           [(str "a/x.md", MemoryCache.mkEntry (str "1") (str "s1"));
            (str "b/y.md", MemoryCache.mkEntry (str "2") (str "s2"))])
  /\ NoDup (MemoryCache.keys
              (MemoryCache.set
                 [(str "a/x.md", MemoryCache.mkEntry (str "1") (str "s1"));
                  (str "b/y.md", MemoryCache.mkEntry (str "2") (str "s2"))]
                 (str "a/x.md") (str "3") (str "pending"))).
Proof.
  assert (H : NoDup (MemoryCache.keys
           [(str "a/x.md", MemoryCache.mkEntry (str "1") (str "s1"));
            (str "b/y.md", MemoryCache.mkEntry (str "2") (str "s2"))])).
  { simpl. constructor.
    - intros [E | []]. discriminate E.
    - constructor; [intros [] | constructor]. }
  split; [exact H|].
  exact (proj2 (proj2 (cache_set_keeps_order _ _ _ _)) H).
Defined.

(** X3.  [delete] reports whether the path was cached; afterwards the
    path is absent, every other path reads as before, the remaining keys
    keep their order, and deleting an absent path changes nothing. *)
Theorem cache_delete_removes_only_path (c : MemoryCache.t) (p : jsstring) :
  snd (MemoryCache.delete c p) = MemoryCache.has c p
  /\ MemoryCache.get (fst (MemoryCache.delete c p)) p = None
  /\ (forall q, q <> p ->
        MemoryCache.get (fst (MemoryCache.delete c p)) q = MemoryCache.get c q)
  /\ MemoryCache.keys (fst (MemoryCache.delete c p))
     = filter (fun k => negb (JS.eqb k p)) (MemoryCache.keys c)
  /\ (MemoryCache.has c p = false -> fst (MemoryCache.delete c p) = c).
Proof.
  split; [reflexivity|]. unfold MemoryCache.delete. cbn [fst]. split.
  { induction c as [|[k e] c IH]; [reflexivity|]. simpl.
    destruct (JS.eqb k p) eqn:E; simpl; [|rewrite E]; exact IH. }
  split.
  { intros q N. apply get_delete_other. congruence. }
  split.
  { unfold MemoryCache.keys. induction c as [|[k e] c IH]; [reflexivity|].
    simpl. destruct (JS.eqb k p); simpl; rewrite IH; reflexivity. }
  unfold MemoryCache.has.
  induction c as [|[k e] c IH]; [reflexivity|]. simpl.
  destruct (JS.eqb k p); simpl; [discriminate|].
  intros H. rewrite IH by exact H. reflexivity.
Qed.

Lemma cache_delete_removes_only_path_witness :
  MemoryCache.has
    [(str "a/x.md", MemoryCache.mkEntry (str "1") (str "s1"))]
    (str "b/y.md") = false
  /\ fst (MemoryCache.delete
            [(str "a/x.md", MemoryCache.mkEntry (str "1") (str "s1"))]
            (str "b/y.md"))
     = [(str "a/x.md", MemoryCache.mkEntry (str "1") (str "s1"))].
Proof.
  split; [reflexivity|].
  exact (proj2 (proj2 (proj2 (proj2
           (cache_delete_removes_only_path
              [(str "a/x.md", MemoryCache.mkEntry (str "1") (str "s1"))]
              (str "b/y.md"))))) eq_refl).
Defined.

Lemma includes_indexOfFrom (s pat : jsstring) (k : Z) :
  0 <= k -> (JS.indexOfFrom s pat k =? -1) = negb (JS.includes s pat).
Proof.
  revert k; induction s as [|c s IH]; intros k Hk;
    cbn [JS.indexOfFrom JS.includes].
  - destruct (JS.startsWith [] pat); simpl; [apply Z.eqb_neq; lia | reflexivity].
  - destruct (JS.startsWith (c :: s) pat); simpl; [apply Z.eqb_neq; lia|].
    apply IH. lia.
Qed.

(** X4.  [search] returns one result for each record whose lowercased
    path or lowercased content holds the lowercased query, and no other,
    in the order of the cache.  The snippet of a result, whether the
    record matched on its path or on its content, is the snippet of its
    content at the offset where the lowercased query first occurs in the
    lowercased content; for a query and a content in ASCII that is the
    snippet around the first case-insensitive occurrence of the query
    in the content. *)
Theorem search_is_filter_then_snippet (c : MemoryCache.t) (query : jsstring) :
  MemoryCache.search c query
  = map (fun kv : jsstring * MemoryCache.CacheEntry =>
           MemoryCache.mkResult (fst kv)
             (Spec.snippetAt (MemoryCache.content (snd kv)) query
                (JS.indexOf (toLowerCase (MemoryCache.content (snd kv)))
                            (toLowerCase query))))
        (filter (Props.matches query) c)
  /\ (Forall (fun u => (u < 128)%N) query ->
      forall kv, In kv c ->
        Forall (fun u => (u < 128)%N) (MemoryCache.content (snd kv)) ->
        Spec.snippetAt (MemoryCache.content (snd kv)) query
          (JS.indexOf (toLowerCase (MemoryCache.content (snd kv)))
                      (toLowerCase query))
        = Spec.snippet (MemoryCache.content (snd kv)) query).
Proof.
  split.
  - unfold MemoryCache.search, MemoryCache.entries, Props.matches.
    induction c as [|[p e] c IH]; [reflexivity|].
    cbn [flat_map filter fst snd]. rewrite IH.
    destruct (JS.includes (toLowerCase p) (toLowerCase query)).
    + cbn [orb app map fst snd].
      rewrite (extractSnippet_at_offset _ _ None (or_introl eq_refl)).
      reflexivity.
    + cbn [orb].
      pose proof (includes_indexOfFrom (toLowerCase (MemoryCache.content e))
                    (toLowerCase query) 0 ltac:(lia)) as I.
      fold (JS.indexOf (toLowerCase (MemoryCache.content e))
                       (toLowerCase query)) in I.
      destruct (JS.includes (toLowerCase (MemoryCache.content e))
                            (toLowerCase query)).
      * apply Z.eqb_neq in I. rewrite (proj2 (Z.eqb_neq _ _) I).
        cbn [negb app map fst snd].
        rewrite (extractSnippet_at_offset _ _ _
                   (or_intror (conj eq_refl I))).
        reflexivity.
      * cbn [negb] in I. rewrite I. reflexivity.
  - intros Hq kv _ Hc. unfold Spec.snippet.
    rewrite indexOf_first_occurrence_ascii by assumption. reflexivity.
Qed.

Lemma slice_length (s : jsstring) (a b : Z) :
  0 <= a -> 0 <= b -> JS.length (JS.slice s a b) <= Z.max 0 (b - a).
Proof.
  intros Ha Hb. unfold JS.slice, JS.length.
  destruct (Z.ltb_spec a 0); [lia|]. destruct (Z.ltb_spec b 0); [lia|].
  rewrite length_firstn, length_skipn. lia.
Qed.

Lemma length_app_str (a b : jsstring) :
  JS.length (a ++ b) = JS.length a + JS.length b.
Proof. unfold JS.length. rewrite length_app. lia. Qed.

(** X5.  A snippet, computed as [search] asks for it, is never longer
    than 156 characters plus the length of the query. *)
Theorem snippet_length_bound
    (content query : jsstring) (matchIndex : option Z) :
  (forall i, matchIndex = Some i -> 0 <= i) ->
  JS.length (MemoryCache.extractSnippet content query matchIndex)
  <= 156 + JS.length query.
Proof.
  intros Hm. unfold MemoryCache.extractSnippet.
  pose proof (length_nonneg query) as Hq.
  destruct (Z.leb_spec (JS.length content) 150) as [Hle|Hgt]; [lia|].
  set (i := match matchIndex with
            | Some i0 => i0
            | None => JS.indexOf (toLowerCase content) (toLowerCase query)
            end).
  assert (Hi : i = -1 \/ 0 <= i).
  { subst i. destruct matchIndex as [i0|]; [right; apply Hm; reflexivity|].
    apply indexOf_range. }
  destruct (Z.eqb_spec i (-1)) as [E|N].
  - rewrite length_app_str.
    pose proof (slice_length content 0 150 ltac:(lia) ltac:(lia)).
    change (JS.length (str "...")) with 3. lia.
  - pose proof (slice_length content (Z.max 0 (i - 50))
                  (Z.min (JS.length content) (i + JS.length query + 100))
                  ltac:(lia) ltac:(lia)) as Hs.
    destruct (0 <? Z.max 0 (i - 50));
      destruct (Z.min (JS.length content) (i + JS.length query + 100)
                <? JS.length content);
      rewrite ?length_app_str; change (JS.length (str "...")) with 3; lia.
Qed.

End CacheProperties.

Lemma search_is_filter_then_snippet_witness :
  Forall (fun u => (u < 128)%N) (str "NEEDLE")
  /\ In (str "notes/a.md",
         MemoryCache.mkEntry
           (repeat 97%N 60 ++ str "Needle" ++ repeat 98%N 200) (str "2e"))
        [(str "notes/a.md",
          MemoryCache.mkEntry
            (repeat 97%N 60 ++ str "Needle" ++ repeat 98%N 200) (str "2e"))]
  /\ Forall (fun u => (u < 128)%N)
            (repeat 97%N 60 ++ str "Needle" ++ repeat 98%N 200)
  /\ Spec.snippetAt
       (repeat 97%N 60 ++ str "Needle" ++ repeat 98%N 200) (str "NEEDLE")
       (JS.indexOf
          (toLowerCase (Runtime := EvalRuntime.runtime)
             (repeat 97%N 60 ++ str "Needle" ++ repeat 98%N 200))
          (toLowerCase (Runtime := EvalRuntime.runtime) (str "NEEDLE")))
     = Spec.snippet (R := EvalRuntime.runtime)
         (repeat 97%N 60 ++ str "Needle" ++ repeat 98%N 200) (str "NEEDLE").
Proof.
  assert (Hq : Forall (fun u => (u < 128)%N) (str "NEEDLE"))
    by (repeat constructor).
  assert (Hc : Forall (fun u => (u < 128)%N)
                 (repeat 97%N 60 ++ str "Needle" ++ repeat 98%N 200))
    by (apply Forall_forall; intros u Hu;
        repeat (apply in_app_or in Hu as [Hu | Hu]);
        try (apply repeat_spec in Hu; subst u; reflexivity);
        simpl in Hu; intuition (subst; reflexivity)).
  split; [exact Hq|]. split; [left; reflexivity|]. split; [exact Hc|].
  exact (proj2 (search_is_filter_then_snippet (R := EvalRuntime.runtime)
                  [(str "notes/a.md",
                    MemoryCache.mkEntry
                      (repeat 97%N 60 ++ str "Needle" ++ repeat 98%N 200)
                      (str "2e"))]
                  (str "NEEDLE"))
               Hq
               (str "notes/a.md",
                MemoryCache.mkEntry
                  (repeat 97%N 60 ++ str "Needle" ++ repeat 98%N 200)
                  (str "2e"))
               (or_introl eq_refl) Hc).
Defined.

Lemma snippet_length_bound_witness :
  (forall i, Some 60 = Some i -> 0 <= i)
  /\ JS.length
       (MemoryCache.extractSnippet (R := EvalRuntime.runtime)
          (repeat 97%N 60 ++ str "Needle" ++ repeat 98%N 200) (str "NEEDLE")
          (Some 60))
     <= 156 + JS.length (str "NEEDLE").
Proof.
  assert (H : forall i, Some 60 = Some i -> 0 <= i)
    by (intros i E; injection E as <-; lia).
  split; [exact H|].
  exact (snippet_length_bound (R := EvalRuntime.runtime) _ _ _ H).
Defined.

(** ** The queue *)
Section QueueProperties.
Import WriteQueue.

Lemma withoutPath_idem (q : t) (p : jsstring) :
  withoutPath (withoutPath q p) p = withoutPath q p.
Proof.
  unfold withoutPath. induction q as [|i q IH]; [reflexivity|]. simpl.
  destruct (JS.eqb (path i) p) eqn:E; simpl; [exact IH|].
  rewrite E. simpl. rewrite IH. reflexivity.
Qed.

Lemma withoutPath_comm (q : t) (p p' : jsstring) :
  withoutPath (withoutPath q p) p' = withoutPath (withoutPath q p') p.
Proof.
  unfold withoutPath. induction q as [|i q IH]; [reflexivity|]. simpl.
  destruct (JS.eqb (path i) p) eqn:E; destruct (JS.eqb (path i) p') eqn:E';
    simpl; rewrite ?E, ?E'; simpl; rewrite ?IH; reflexivity.
Qed.

Lemma withoutPath_absent (q : t) (p : jsstring) :
  find (Spec.forPath p) q = None -> withoutPath q p = q.
Proof.
  unfold withoutPath, Spec.forPath. induction q as [|i q IH]; [reflexivity|].
  simpl. destruct (JS.eqb (path i) p); [discriminate|]. simpl.
  intros H. rewrite IH by exact H. reflexivity.
Qed.

Lemma withoutPath_enqueue (q : t) now (p c : jsstring) op :
  withoutPath (enqueue q now p c op) p = withoutPath q p.
Proof.
  unfold enqueue, withoutPath at 1. rewrite filter_app. simpl.
  rewrite eqb_refl. simpl. rewrite app_nil_r. apply withoutPath_idem.
Qed.

Lemma find_enqueue (q : t) now (p c : jsstring) op :
  find (Spec.forPath p) (enqueue q now p c op) = Some (mkItem p c op now 0).
Proof.
  unfold enqueue.
  assert (G : forall l, find (Spec.forPath p) l = None ->
                        find (Spec.forPath p) (l ++ [mkItem p c op now 0])
                        = Some (mkItem p c op now 0)).
  { induction l as [|i l IH]; simpl.
    - intros _. unfold Spec.forPath; simpl. rewrite eqb_refl. reflexivity.
    - destruct (Spec.forPath p i); [discriminate | exact IH]. }
  apply G, find_withoutPath.
Qed.

(** X6.  For one path the last [enqueue] wins: it replaces the item of
    an earlier [enqueue] whole, and a [remove] after it leaves the queue
    as a [remove] without it would. *)
Theorem enqueue_last_intent_wins
    (q : t) (t1 t2 : Z) (p c1 c2 : jsstring) (o1 o2 : Operation) :
  enqueue (enqueue q t1 p c1 o1) t2 p c2 o2 = enqueue q t2 p c2 o2
  /\ remove (enqueue q t1 p c1 o1) p = remove q p.
Proof.
  split.
  - unfold enqueue at 1. rewrite withoutPath_enqueue. reflexivity.
  - apply withoutPath_enqueue.
Qed.

(** X7.  [remove] takes out the items of its path and nothing else: a
    path without item leaves the queue as it is, a second [remove] does
    nothing more, removals of two paths commute, and the queue never
    grows. *)
Theorem remove_only_its_path (q : t) (p : jsstring) :
  find (Spec.forPath p) (remove q p) = None
  /\ (forall p', p' <> p ->
        filter (Spec.forPath p') (remove q p) = filter (Spec.forPath p') q)
  /\ (find (Spec.forPath p) q = None -> remove q p = q)
  /\ remove (remove q p) p = remove q p
  /\ (forall p', remove (remove q p) p' = remove (remove q p') p)
  /\ size (remove q p) <= size q.
Proof.
  unfold remove.
  split; [apply find_withoutPath|].
  split; [intros p' N; apply filter_other_withoutPath, N|].
  split; [apply withoutPath_absent|].
  split; [apply withoutPath_idem|].
  split; [intros p'; apply withoutPath_comm|].
  unfold size, withoutPath.
  pose proof (filter_length_le (fun item => negb (JS.eqb (path item) p)) q).
  lia.
Qed.

Lemma remove_only_its_path_witness :
  find (Spec.forPath (str "b/y.md"))
       [mkItem (str "a/x.md") (str "1") save 10 0] = None
  /\ remove [mkItem (str "a/x.md") (str "1") save 10 0] (str "b/y.md")
     = [mkItem (str "a/x.md") (str "1") save 10 0].
Proof.
  split; [reflexivity|].
  exact (proj1 (proj2 (proj2
           (remove_only_its_path
              [mkItem (str "a/x.md") (str "1") save 10 0] (str "b/y.md"))))
           eq_refl).
Defined.

(** X8.  An item is given up at its third failure: after [enqueue], the
    first two [incrementRetry] of the path return true and keep the item
    with retry counts 1 and 2, the third returns false and leaves the
    queue without any item for the path. *)
Theorem third_failure_drops_item
    (q : t) (now : Z) (p c : jsstring) (op : Operation) :
  let r1 := incrementRetry (enqueue q now p c op) p in
  let r2 := incrementRetry (fst r1) p in
  let r3 := incrementRetry (fst r2) p in
  snd r1 = true
  /\ find (Spec.forPath p) (fst r1) = Some (mkItem p c op now 1)
  /\ snd r2 = true
  /\ find (Spec.forPath p) (fst r2) = Some (mkItem p c op now 2)
  /\ snd r3 = false
  /\ fst r3 = remove q p.
Proof.
  pose proof (find_enqueue q now p c op) as F0.
  assert (E1 : incrementRetry (enqueue q now p c op) p
               = (bumpFirst (enqueue q now p c op) p, true))
    by (apply (incrementRetry_kept _ _ _ F0); reflexivity).
  pose proof (find_bumpFirst _ _ _ F0) as F1. cbn [path content operation
    timestamp retryCount] in F1. change (0 + 1) with 1 in F1.
  assert (E2 : incrementRetry (bumpFirst (enqueue q now p c op) p) p
               = (bumpFirst (bumpFirst (enqueue q now p c op) p) p, true))
    by (apply (incrementRetry_kept _ _ _ F1); reflexivity).
  pose proof (find_bumpFirst _ _ _ F1) as F2. cbn [path content operation
    timestamp retryCount] in F2. change (1 + 1) with 2 in F2.
  assert (E3 : incrementRetry
                 (bumpFirst (bumpFirst (enqueue q now p c op) p) p) p
               = (remove (bumpFirst (bumpFirst (enqueue q now p c op) p) p) p,
                  false))
    by (apply (incrementRetry_exhausted _ _ _ F2); cbn; unfold MAX_RETRIES; lia).
  cbv zeta. rewrite E1. cbn [fst snd]. rewrite E2. cbn [fst snd]. rewrite E3.
  cbn [fst snd]. repeat split; try assumption.
  unfold remove. rewrite !withoutPath_bumpFirst. apply withoutPath_enqueue.
Qed.

End QueueProperties.

(** ** The manifest *)
Section ManifestProperties.
Context {R : Runtime}.

Lemma In_fold_setAdd (xs : list jsstring) (acc : JS.StringSet) (x : jsstring) :
  In x (fold_left JS.setAdd xs acc) <-> In x acc \/ In x xs.
Proof.
  revert acc; induction xs as [|y xs IH]; intros acc; simpl.
  - tauto.
  - rewrite IH, In_setAdd. split.
    + intros [[-> | H] | H]; auto.
    + intros [H | [-> | H]]; auto.
Qed.

Lemma NoDup_fold_setAdd (xs : list jsstring) (acc : JS.StringSet) :
  NoDup acc -> NoDup (fold_left JS.setAdd xs acc).
Proof.
  revert acc; induction xs as [|y xs IH]; intros acc D; simpl; [exact D|].
  apply IH, NoDup_setAdd, D.
Qed.

Lemma In_setOf (xs : list jsstring) (x : jsstring) :
  In x (JS.setOf xs) <-> In x xs.
Proof. unfold JS.setOf. rewrite In_fold_setAdd. simpl. tauto. Qed.

Lemma NoDup_setOf (xs : list jsstring) : NoDup (JS.setOf xs).
Proof. apply NoDup_fold_setAdd. constructor. Qed.

Lemma length_insert {A} (le : A -> A -> bool) (x : A) (l : list A) :
  List.length (JS.insert le x l) = S (List.length l).
Proof.
  induction l as [|y l IH]; simpl; [reflexivity|].
  destruct (le x y); simpl; [reflexivity | rewrite IH; reflexivity].
Qed.

Lemma length_sortBy {A} (le : A -> A -> bool) (l : list A) :
  List.length (JS.sortBy le l) = List.length l.
Proof.
  induction l as [|x l IH]; simpl; [reflexivity|].
  rewrite length_insert, IH. reflexivity.
Qed.

Lemma existsb_slash (p : jsstring) : existsb (N.eqb 47) p = true <-> In 47%N p.
Proof.
  rewrite existsb_exists. split.
  - intros [c [Hc E]]. apply N.eqb_eq in E. subst; exact Hc.
  - intros H. exists 47%N. split; [exact H | reflexivity].
Qed.

(** The category [updateIndex] and the listing compute for a path. *)
Lemma category_of_parts (p : jsstring) :
  (if 1 <? Z.of_nat (List.length (JS.split p 47%N))
   then hd [] (JS.split p 47%N) else str "root")
  = Props.categoryOf p.
Proof.
  unfold Props.categoryOf.
  destruct (1 <? Z.of_nat (List.length (JS.split p 47%N))) eqn:E.
  - apply split_several, existsb_slash in E. rewrite E. reflexivity.
  - destruct (existsb (N.eqb 47) p) eqn:X; [|reflexivity].
    apply existsb_slash, split_several in X. congruence.
Qed.

Lemma In_listed (c : MemoryCache.t) (p cat : jsstring) :
  In (p, cat)
     (map (fun path =>
             let parts := JS.split path 47%N in
             (path,
              if 1 <? Z.of_nat (List.length parts) then hd [] parts
              else str "root"))
          (filter (fun path => negb (JS.eqb path IndexGen.INDEX_PATH))
                  (MemoryCache.keys c)))
  <-> In p (MemoryCache.keys c) /\ p <> IndexGen.INDEX_PATH
      /\ cat = Props.categoryOf p.
Proof.
  rewrite in_map_iff. split.
  - intros [q [E H]]. cbv zeta in E. rewrite category_of_parts in E.
    injection E as <- <-. apply filter_In in H as [H N].
    apply negb_true_iff, eqb_neq in N. auto.
  - intros (H & N & ->). exists p. cbv zeta. rewrite category_of_parts.
    split; [reflexivity|]. apply filter_In. split; [exact H|].
    apply negb_true_iff, eqb_neq, N.
Qed.

(** X9.  The manifest [updateIndex] builds lists every cached path but
    "index.json", once per key, with the first segment of the path as
    category, or "root" for a path without slash; its categories are
    those of the listed files, each once, in increasing order. *)
Theorem manifest_covers_cache (nowIso : jsstring) (c : MemoryCache.t) :
  let idx := IndexGen.buildIndex nowIso c in
  (forall p cat,
      In (p, cat) (idx_files idx)
      <-> In p (MemoryCache.keys c) /\ p <> IndexGen.INDEX_PATH
          /\ cat = Props.categoryOf p)
  /\ List.length (idx_files idx)
     = List.length (filter (fun p => negb (JS.eqb p IndexGen.INDEX_PATH))
                           (MemoryCache.keys c))
  /\ StronglySorted Spec.lexLt (idx_categories idx)
  /\ (forall cat,
        In cat (idx_categories idx)
        <-> exists p, In p (MemoryCache.keys c) /\ p <> IndexGen.INDEX_PATH
                      /\ cat = Props.categoryOf p)
  /\ idx_lastUpdated idx = nowIso.
Proof.
  cbv zeta. unfold IndexGen.buildIndex. cbn [idx_files idx_categories idx_lastUpdated].
  assert (F : forall p cat,
             In (p, cat)
                (JS.sortBy (fun a b => localeCompare (fst a) (fst b) <=? 0)
                   (map (fun path =>
                           let parts := JS.split path 47%N in
                           (path,
                            if 1 <? Z.of_nat (List.length parts)
                            then hd [] parts else str "root"))
                        (filter (fun path => negb (JS.eqb path IndexGen.INDEX_PATH))
                                (MemoryCache.keys c))))
             <-> In p (MemoryCache.keys c) /\ p <> IndexGen.INDEX_PATH
                 /\ cat = Props.categoryOf p)
    by (intros p cat; rewrite In_sortBy; apply In_listed).
  split; [exact F|].
  split; [rewrite length_sortBy, length_map; reflexivity|].
  split; [apply sort_strict, NoDup_setOf|].
  split; [|reflexivity].
  intros cat. unfold JS.sort. rewrite In_sortBy, In_setOf, in_map_iff. split.
  - intros [[p cat'] [E H]]. simpl in E. subst cat'. apply F in H.
    destruct H as (H & N & ->). exists p. auto.
  - intros (p & H & N & ->). exists (p, Props.categoryOf p).
    split; [reflexivity|]. apply F. auto.
Qed.

Lemma leb_antisym (a b : jsstring) :
  JS.leb a b = true -> JS.leb b a = true -> a = b.
Proof.
  revert b; induction a as [|x a IH]; intros [|y b]; simpl;
    try discriminate; auto.
  rewrite !orb_true_iff, !andb_true_iff, !N.ltb_lt, !N.eqb_eq.
  intros [L1 | [E1 H1]] [L2 | [E2 H2]]; subst; try lia.
  f_equal. apply IH; assumption.
Qed.

(** Two strictly increasing lists with the same members are equal. *)
Lemma strictly_sorted_unique (l1 l2 : list jsstring) :
  StronglySorted Spec.lexLt l1 -> StronglySorted Spec.lexLt l2 ->
  (forall x, In x l1 <-> In x l2) -> l1 = l2.
Proof.
  intros S1; revert l2.
  induction S1 as [|a l1 S1 IH F1]; intros l2 S2 M.
  - destruct l2 as [|b l2]; [reflexivity|].
    destruct (proj2 (M b) (or_introl eq_refl)).
  - destruct S2 as [|b l2 S2 F2].
    + destruct (proj1 (M a) (or_introl eq_refl)).
    + rewrite Forall_forall in F1, F2.
      assert (a = b) as <-.
      { destruct (proj1 (M a) (or_introl eq_refl)) as [E | Ha]; [auto|].
        destruct (proj2 (M b) (or_introl eq_refl)) as [E | Hb]; [auto|].
        destruct (F1 _ Hb) as [L1 _]. destruct (F2 _ Ha) as [L2 _].
        apply leb_antisym; assumption. }
      f_equal. apply IH; [exact S2|]. intros x. split; intros Hx.
      * destruct (proj1 (M x) (or_intror Hx)) as [E | H]; [|exact H].
        subst x. destruct (F1 _ Hx) as [_ N]. congruence.
      * destruct (proj2 (M x) (or_intror Hx)) as [E | H]; [|exact H].
        subst x. destruct (F2 _ Hx) as [_ N]. congruence.
Qed.

(** X10.  Without a cached "index.json", [list_knowledge] shows the
    files of the cache in cache order, each with the category the
    manifest gives it, and exactly the categories the manifest would
    show. *)
Theorem listing_agrees_with_manifest (nowIso : jsstring) (c : MemoryCache.t) :
  idx_files (Server.listFromCache nowIso c)
  = map (fun p => (p, Props.categoryOf p))
        (filter (fun p => negb (JS.eqb p IndexGen.INDEX_PATH))
                (MemoryCache.keys c))
  /\ idx_categories (Server.listFromCache nowIso c)
     = idx_categories (IndexGen.buildIndex nowIso c).
Proof.
  split.
  - unfold Server.listFromCache. cbn [idx_files].
    apply map_ext. intros p. cbv zeta. rewrite category_of_parts. reflexivity.
  - unfold Server.listFromCache, IndexGen.buildIndex. cbn [idx_categories].
    apply strictly_sorted_unique; try (apply sort_strict, NoDup_setOf).
    intros x. unfold JS.sort. rewrite !In_sortBy, !In_setOf, !in_map_iff.
    split; intros [[p cat] [E H]]; exists (p, cat); (split; [exact E|]).
    + apply In_sortBy. exact H.
    + apply In_sortBy in H. exact H.
Qed.

End ManifestProperties.

(** ** The writer: one request and its background task *)
Section WriterProperties.
Context {R : Runtime}.
Import AsyncWriter.

Lemma setHas_setAdd (s : JS.StringSet) (x y : jsstring) :
  JS.setHas (JS.setAdd s x) y = JS.setHas s y || JS.eqb y x.
Proof.
  unfold JS.setAdd. destruct (JS.setHas s x) eqn:E.
  - destruct (JS.eqb y x) eqn:Y; [|rewrite orb_false_r; reflexivity].
    apply eqb_eq in Y. subst y. rewrite E. reflexivity.
  - unfold JS.setHas. rewrite existsb_app. simpl. rewrite orb_false_r.
    reflexivity.
Qed.

Lemma setHas_setDelete (s : JS.StringSet) (x y : jsstring) :
  JS.setHas (JS.setDelete s x) y = JS.setHas s y && negb (JS.eqb y x).
Proof.
  unfold JS.setHas, JS.setDelete. induction s as [|z s IH]; [reflexivity|].
  simpl. destruct (JS.eqb z x) eqn:Z; simpl; rewrite IH.
  - apply eqb_eq in Z. subst z. destruct (JS.eqb y x); simpl;
      [rewrite !andb_false_r | rewrite !andb_true_r]; reflexivity.
  - destruct (JS.eqb y z) eqn:Y; simpl; [|reflexivity].
    apply eqb_eq in Y. subst z. rewrite Z. reflexivity.
Qed.

Lemma find_app_last {A} (f : A -> bool) (l : list A) (x : A) :
  (forall y, In y l -> f y = false) -> f x = true ->
  find f (l ++ [x]) = Some x /\ filter (fun y => negb (f y)) (l ++ [x]) = l.
Proof.
  intros Hl Hx. induction l as [|y l IH]; simpl.
  - rewrite Hx. simpl. auto.
  - rewrite (Hl y (or_introl eq_refl)). simpl.
    destruct IH as [F G]; [intros z Hz; apply Hl; right; exact Hz|].
    rewrite F, G. auto.
Qed.

(** Settling the task that was suspended last, under a number no other
    task has, resumes that task and takes it off the list. *)
Lemma takeTask_last (tid : nat) (k : Suspended) (w : World)
    (ts : list (nat * Suspended)) :
  tasks w = ts ++ [(tid, k)] ->
  (forall t, In t ts -> fst t <> tid) ->
  takeTask tid w
  = (Some k,
     mkWorld (cache w) (writeQueue w) (pendingWrites w) ts (nextTask w)
             (remote w)).
Proof.
  intros E H. unfold takeTask. rewrite E.
  destruct (find_app_last (fun t => Nat.eqb (fst t) tid) ts (tid, k)) as [F G].
  - intros t Ht. apply Nat.eqb_neq, H, Ht.
  - apply Nat.eqb_refl.
  - rewrite F, G. reflexivity.
Qed.

Lemma takeTask_absent (tid : nat) (w : World) :
  (forall t, In t (tasks w) -> fst t <> tid) -> takeTask tid w = (None, w).
Proof.
  intros H. unfold takeTask.
  destruct (find _ (tasks w)) as [t|] eqn:F; [|reflexivity].
  apply find_some in F as [F E]. apply Nat.eqb_eq in E.
  destruct (H t F E).
Qed.

Lemma get_delete_same (c : MemoryCache.t) (p : jsstring) :
  MemoryCache.get (fst (MemoryCache.delete c p)) p = None.
Proof.
  unfold MemoryCache.delete. cbn [fst].
  induction c as [|[k e] c IH]; [reflexivity|]. simpl.
  destruct (JS.eqb k p) eqn:E; simpl; [|rewrite E]; exact IH.
Qed.

(** X11.  [delete] of a path that is not cached fails with "File not
    found" and changes nothing.  For a cached path it succeeds: the
    record is gone, the other records and the queue are as before, and
    one remote delete carrying the cached token is sent, unless a
    background task for the path is in flight, in which case nothing is
    sent. *)
Theorem delete_drops_cached_record (p : jsstring) (w : World) :
  (MemoryCache.get (cache w) p = None ->
   delete p w
   = (mkDeleteResult false (Some (str "File not found: " ++ p)), w))
  /\ (forall existing,
        MemoryCache.get (cache w) p = Some existing ->
        fst (delete p w) = mkDeleteResult true None
        /\ read (snd (delete p w)) p = None
        /\ (forall q, q <> p -> read (snd (delete p w)) q = read w q)
        /\ writeQueue (snd (delete p w)) = writeQueue w
        /\ (JS.setHas (pendingWrites w) p = false ->
            remote (snd (delete p w))
            = remote w ++ [deleteFile p (MemoryCache.sha existing)]
            /\ tasks (snd (delete p w))
               = tasks w ++ [(nextTask w, DeleteCall p)])
        /\ (JS.setHas (pendingWrites w) p = true ->
            remote (snd (delete p w)) = remote w
            /\ tasks (snd (delete p w)) = tasks w)).
Proof.
  split.
  - intros H. unfold delete. rewrite H. reflexivity.
  - intros existing H. unfold delete. rewrite H. cbn [fst snd].
    split; [reflexivity|].
    assert (C : cache (deleteFromGitHub p (MemoryCache.sha existing)
                         (withCache (fst (MemoryCache.delete (cache w) p)) w))
                = fst (MemoryCache.delete (cache w) p))
      by (unfold deleteFromGitHub; destruct (JS.setHas _ _); reflexivity).
    unfold read. rewrite C.
    split; [rewrite get_delete_same; reflexivity|].
    split; [intros q N; rewrite get_delete_other by congruence; reflexivity|].
    unfold deleteFromGitHub. cbn [pendingWrites withCache].
    split; [destruct (JS.setHas _ _); reflexivity|].
    split; intros P; rewrite P; split; reflexivity.
Qed.

Lemma byteLength_bounds (n : nat) (s : jsstring) :
  (List.length s <= n)%nat ->
  JS.length s <= JS.byteLength s <= 3 * JS.length s.
Proof.
  revert s; induction n as [|n IH]; intros s Hn.
  - destruct s; [simpl; unfold JS.length; simpl; lia | simpl in Hn; lia].
  - destruct s as [|c s]; [unfold JS.length; simpl; lia|].
    simpl in Hn. cbn [JS.byteLength]. unfold JS.length in *.
    cbn [List.length]. rewrite Nat2Z.inj_succ.
    pose proof (IH s ltac:(lia)) as Hs.
    destruct (N.ltb c 128); [lia|]. destruct (N.ltb c 2048); [lia|].
    destruct (JS.isHighSurrogate c); [|lia].
    destruct s as [|d s']; [simpl; lia|].
    destruct (JS.isLowSurrogate d); [|lia].
    simpl in Hn. pose proof (IH s' ltac:(lia)) as Hs'.
    cbn [List.length] in *. rewrite Nat2Z.inj_succ in *. lia.
Qed.

(** X12.  In characters, the size check of [save] accepts every content
    of at most 349525 UTF-16 code units and refuses every content of more
    than 1048576. *)
Theorem save_size_gate_in_characters
    (category name content : jsstring) (w : World) :
  (JS.length content <= 349525 ->
   success (fst (save category name content w)) = true)
  /\ (1048576 < JS.length content ->
      success (fst (save category name content w)) = false
      /\ snd (save category name content w) = w).
Proof.
  pose proof (byteLength_bounds _ content (le_n _)) as B.
  unfold save, MAX_FILE_SIZE. split; intros H.
  - destruct (Z.ltb_spec (1 * 1024 * 1024) (JS.byteLength content)); [lia|].
    reflexivity.
  - destruct (Z.ltb_spec (1 * 1024 * 1024) (JS.byteLength content)); [|lia].
    split; reflexivity.
Qed.

End WriterProperties.

Lemma delete_drops_cached_record_witness :
  MemoryCache.get (AsyncWriter.cache AsyncWriter.initial) (str "test/a.md")
  = None
  /\ AsyncWriter.delete (str "test/a.md") AsyncWriter.initial
     = (AsyncWriter.mkDeleteResult false
          (Some (str "File not found: test/a.md")),
        AsyncWriter.initial).
Proof.
  split; [reflexivity|].
  exact (proj1 (delete_drops_cached_record (str "test/a.md")
                  AsyncWriter.initial) eq_refl).
Defined.

Lemma save_size_gate_in_characters_witness :
  JS.length (str "# Test") <= 349525
  /\ AsyncWriter.success
       (fst (AsyncWriter.save (R := EvalRuntime.runtime)
               (str "test") (str "sample.md") (str "# Test")
               AsyncWriter.initial)) = true.
Proof.
  assert (H : JS.length (str "# Test") <= 349525) by (vm_compute; discriminate).
  split; [exact H|].
  exact (proj1 (save_size_gate_in_characters (R := EvalRuntime.runtime)
                  (str "test") (str "sample.md") (str "# Test")
                  AsyncWriter.initial) H).
Defined.

(** ** The writer: a request followed to the end of its background task *)
Section SyncProperties.
Context {R : Runtime}.
Import AsyncWriter.

Ltac simpl_world :=
  cbn [cache writeQueue pendingWrites tasks nextTask remote
       withCache withQueue withPending await].

Lemma fresh_differs (w : World) :
  Props.freshTasks w -> forall t, In t (tasks w) -> fst t <> nextTask w.
Proof. intros [_ H] t Ht. apply H in Ht. lia. Qed.

(** The state [save] leaves when it launches a sync. *)
Lemma save_launches (category name content : jsstring) (w : World) :
  JS.byteLength content <= MAX_FILE_SIZE ->
  JS.setHas (pendingWrites w) (composePath category name) = false ->
  snd (save category name content w)
  = mkWorld
      (MemoryCache.set (cache w) (composePath category name) content
         (match MemoryCache.get (cache w) (composePath category name) with
          | Some existing => MemoryCache.sha existing
          | None => str "pending"
          end))
      (writeQueue w)
      (JS.setAdd (pendingWrites w) (composePath category name))
      (tasks w
       ++ [(nextTask w, SyncPut (composePath category name) content)])
      (Nat.max (nextTask w) (S (nextTask w)))
      (remote w
       ++ [putFile (composePath category name) content
             (option_map MemoryCache.sha
                (MemoryCache.get (cache w) (composePath category name)))]).
Proof.
  intros Hsize Hp. unfold save. rewrite (size_accepted _ Hsize). cbn [snd].
  unfold syncToGitHub. cbn [pendingWrites withCache]. rewrite Hp.
  unfold await, withPending, withCache.
  cbn [cache writeQueue pendingWrites tasks nextTask remote].
  destruct (MemoryCache.get (cache w) (composePath category name));
    reflexivity.
Qed.



(** X15.  A delete of a path whose save is still syncing sends nothing
    to the remote store, and is undone when that sync succeeds: the
    record is absent after the delete and back, with the saved content,
    once the [putFile] has resolved. *)
Theorem delete_during_sync_is_undone
    (category name content newSha : jsstring) (w : World) (clk : Clock) :
  JS.byteLength content <= MAX_FILE_SIZE ->
  Props.freshTasks w ->
  JS.setHas (pendingWrites w) (composePath category name) = false ->
  let p := composePath category name in
  let w1 := snd (save category name content w) in
  let w2 := snd (delete p w1) in
  let w3 := step clk (Settle (nextTask w) (Fulfilled newSha)) w2 in
  fst (delete p w1) = mkDeleteResult true None
  /\ read w2 p = None
  /\ remote w2 = remote w1
  /\ read w3 p = Some content.
Proof.
  intros Hsize Hf Hp p w1 w2 w3. subst w3 w2 w1. fold p in Hp.
  rewrite (save_launches _ _ _ _ Hsize Hp). fold p.
  unfold delete. cbn [cache]. rewrite get_set_same. cbn [fst snd].
  unfold deleteFromGitHub. cbn [pendingWrites withCache].
  rewrite setHas_setAdd, eqb_refl, orb_true_r.
  split; [reflexivity|]. unfold read. simpl_world.
  split; [rewrite get_delete_same; reflexivity|].
  split; [reflexivity|].
  unfold step.
  match goal with
  | |- context [takeTask ?t ?w0] =>
      rewrite (takeTask_last t (SyncPut p content) w0 (tasks w) eq_refl
                 (fresh_differs w Hf))
  end.
  cbn [resume]. unfold updateIndex. rewrite cache_await.
  cbn [cache withCache]. rewrite get_set_same. reflexivity.
Qed.


End SyncProperties.

(** ** The writer: draining the queue *)
Section DrainProperties.
Context {R : Runtime}.
Import AsyncWriter.

Ltac simpl_world :=
  cbn [cache writeQueue pendingWrites tasks nextTask remote
       withCache withQueue withPending await].

(** However long the list, the loop of a drain stops at one remote call
    with one task suspended on it, and touches only the queue. *)
Lemma drainLoop_shape clk tid items (w : World) :
  exists call k,
    tasks (drainLoop clk tid items w) = tasks w ++ [(tid, k)]
    /\ remote (drainLoop clk tid items w) = remote w ++ [call]
    /\ Props.marked k = None
    /\ nextTask (drainLoop clk tid items w) = Nat.max (nextTask w) (S tid)
    /\ pendingWrites (drainLoop clk tid items w) = pendingWrites w
    /\ cache (drainLoop clk tid items w) = cache w.
Proof.
  revert w; induction items as [|item rest IH]; intros w; simpl.
  - unfold updateIndex. eexists _, _. simpl_world. repeat split.
  - destruct (WriteQueue.operation item).
    + eexists _, _. simpl_world. repeat split.
    + destruct (MemoryCache.get _ _).
      * eexists _, _. simpl_world. repeat split.
      * destruct (IH (withQueue
          (WriteQueue.remove (writeQueue w) (WriteQueue.path item)) w))
          as (call & k & H).
        exists call, k. exact H.
Qed.

(** X17.  A drain keeps one remote call in flight at a time: started on
    a queue that holds something, and again each time its call settles
    before the end, it sends exactly one call and suspends on it, and it
    changes neither the cache nor the in-flight markers. *)
Theorem drain_is_sequential (clk : Clock) (w : World) :
  (WriteQueue.getAll (writeQueue w) <> [] ->
   exists call k,
     remote (drainQueue clk w) = remote w ++ [call]
     /\ tasks (drainQueue clk w) = tasks w ++ [(nextTask w, k)]
     /\ Props.marked k = None
     /\ cache (drainQueue clk w) = cache w
     /\ pendingWrites (drainQueue clk w) = pendingWrites w)
  /\ (forall tid item rest o,
        let resumed := resume clk tid (DrainPut item rest) o w in
        let resumed' := resume clk tid (DrainDelete item rest) o w in
        resumed' = resumed
        /\ exists call k,
             remote resumed = remote w ++ [call]
             /\ tasks resumed = tasks w ++ [(tid, k)]
             /\ Props.marked k = None
             /\ cache resumed = cache w
             /\ pendingWrites resumed = pendingWrites w).
Proof.
  split.
  - intros H. unfold drainQueue.
    destruct (WriteQueue.getAll (writeQueue w)) as [|i q] eqn:E; [congruence|].
    cbn [List.length]. replace (Z.of_nat (S (List.length q)) =? 0) with false
      by (symmetry; apply Z.eqb_neq; lia).
    destruct (drainLoop_shape clk (nextTask w) (i :: q) w)
      as (call & k & T & Rm & M & _ & P & C).
    exists call, k. auto.
  - intros tid item rest o. cbv zeta. split; [reflexivity|].
    cbn [resume].
    destruct o;
      match goal with
      | |- context [drainLoop clk tid rest ?w0] =>
          destruct (drainLoop_shape clk tid rest w0)
            as (call & k & T & Rm & M & _ & P & C)
      end; exists call, k; auto.
Qed.

Lemma drainLoop_skips clk tid items (w : World) :
  Forall (fun i => WriteQueue.operation i = WriteQueue.delete
                   /\ MemoryCache.get (cache w) (WriteQueue.path i) = None)
         items ->
  drainLoop clk tid items w
  = updateIndex clk tid DrainIndex
      (withQueue
         (fold_left WriteQueue.remove (map WriteQueue.path items)
                    (writeQueue w)) w).
Proof.
  revert w; induction items as [|item rest IH]; intros w F; simpl.
  - destruct w; reflexivity.
  - inversion F as [|? ? [Hop Hget] F']; subst. rewrite Hop, Hget.
    rewrite IH by exact F'. reflexivity.
Qed.

Lemma remove_all_paths (l : list jsstring) (q : WriteQueue.t) :
  (forall i, In i q -> In (WriteQueue.path i) l) ->
  fold_left WriteQueue.remove l q = [].
Proof.
  revert q; induction l as [|p l IH]; intros q H; simpl.
  - destruct q as [|i q]; [reflexivity|]. destruct (H i (or_introl eq_refl)).
  - apply IH. intros i Hi. unfold WriteQueue.remove, WriteQueue.withoutPath in Hi.
    apply filter_In in Hi as [Hi N]. apply negb_true_iff, eqb_neq in N.
    destruct (H i Hi) as [E | Hl]; [congruence | exact Hl].
Qed.

(** X18.  A drain of pending deletes whose records are no longer cached
    calls the remote store for none of them: it empties the queue and
    sends the one [putFile] of the index rebuild. *)
Theorem drain_skips_deletes_of_uncached (clk : Clock) (w : World) :
  WriteQueue.getAll (writeQueue w) <> [] ->
  Forall (fun i => WriteQueue.operation i = WriteQueue.delete
                   /\ MemoryCache.get (cache w) (WriteQueue.path i) = None)
         (WriteQueue.getAll (writeQueue w)) ->
  writeQueue (drainQueue clk w) = []
  /\ remote (drainQueue clk w)
     = remote w
       ++ [putFile IndexGen.INDEX_PATH
             (IndexGen.indexContent (nowIso clk) (cache w))
             (option_map MemoryCache.sha
                (MemoryCache.get (cache w) IndexGen.INDEX_PATH))]
  /\ cache (drainQueue clk w) = cache w.
Proof.
  intros NE F. unfold drainQueue.
  destruct (WriteQueue.getAll (writeQueue w)) as [|i q] eqn:E; [congruence|].
  cbn [List.length]. replace (Z.of_nat (S (List.length q)) =? 0) with false
    by (symmetry; apply Z.eqb_neq; lia).
  rewrite drainLoop_skips by exact F. unfold updateIndex. simpl_world.
  split; [|split; reflexivity].
  unfold WriteQueue.getAll in E. rewrite E.
  apply remove_all_paths. intros j Hj. apply in_map, Hj.
Qed.

Lemma run_settle_absent (es : list (Clock * Event)) (tid : nat) (w : World) :
  (forall t, In t (tasks w) -> fst t <> tid) ->
  Forall (fun ce => exists o, snd ce = Settle tid o) es ->
  run es w = w.
Proof.
  intros H F. unfold run. induction F as [|[clk e] es [o E] F IH]; [reflexivity|].
  simpl in *. subst e. cbn [step]. rewrite (takeTask_absent tid w H).
  exact IH.
Qed.

Lemma step_settle_last clk tid k o call (w : World) :
  (forall t, In t (tasks w) -> fst t <> tid) ->
  step clk (Settle tid o) (await tid call k w)
  = resume clk tid k o
      (mkWorld (cache w) (writeQueue w) (pendingWrites w) (tasks w)
               (Nat.max (nextTask w) (S tid)) (remote w ++ [call])).
Proof.
  intros Hf. unfold step.
  rewrite (takeTask_last tid k (await tid call k w) (tasks w) eq_refl Hf).
  reflexivity.
Qed.

(** The settles of a drain whose calls all succeed, one after the
    other: every path of the list is removed from the queue. *)
Lemma drainLoop_all_fulfilled clk tid (s : jsstring) items (n : nat) (w : World) :
  (forall t, In t (tasks w) -> fst t <> tid) ->
  (List.length items < n)%nat ->
  writeQueue (run (repeat (clk, Settle tid (Fulfilled s)) n)
                  (drainLoop clk tid items w))
  = fold_left WriteQueue.remove (map WriteQueue.path items) (writeQueue w)
  /\ tasks (run (repeat (clk, Settle tid (Fulfilled s)) n)
                (drainLoop clk tid items w))
     = tasks w.
Proof.
  revert n w; induction items as [|item rest IH]; intros n w Hf Hn.
  - destruct n as [|n]; [simpl in Hn; lia|]. cbn [repeat drainLoop].
    unfold updateIndex.
    match goal with
    | |- context [run (?e :: ?es) ?w0] =>
        change (run (e :: es) w0) with (run es (step (fst e) (snd e) w0))
    end.
    cbn [fst snd]. rewrite step_settle_last by exact Hf.
    cbn [resume updateIndexSettled].
    rewrite (run_settle_absent _ tid).
    + split; reflexivity.
    + exact Hf.
    + apply Forall_forall. intros ce Hce. apply repeat_spec in Hce. subst ce.
      eexists; reflexivity.
  - cbn [drainLoop map fold_left].
    assert (Step : forall k,
               (k = DrainPut item rest \/ k = DrainDelete item rest) ->
               forall call n',
                 (List.length rest < n')%nat ->
                 writeQueue (run (repeat (clk, Settle tid (Fulfilled s)) (S n'))
                                 (await tid call k w))
                 = fold_left WriteQueue.remove (map WriteQueue.path rest)
                     (WriteQueue.remove (writeQueue w) (WriteQueue.path item))
                 /\ tasks (run (repeat (clk, Settle tid (Fulfilled s)) (S n'))
                               (await tid call k w))
                    = tasks w).
    { intros k Hk call n' Hn'. cbn [repeat].
      match goal with
      | |- context [run (?e :: ?es) ?w0] =>
          change (run (e :: es) w0) with (run es (step (fst e) (snd e) w0))
      end.
      cbn [fst snd]. rewrite step_settle_last by exact Hf.
      assert (Rk : forall w0, resume clk tid k (Fulfilled s) w0
                   = drainLoop clk tid rest
                       (withQueue (WriteQueue.remove (writeQueue w0)
                                     (WriteQueue.path item)) w0))
        by (destruct Hk; subst k; reflexivity).
      rewrite Rk.
      match goal with
      | |- context [drainLoop clk tid rest ?w0] =>
          exact (IH n' w0 Hf Hn')
      end. }
    destruct n as [|n]; [simpl in Hn; lia|]. simpl in Hn.
    destruct (WriteQueue.operation item).
    + apply (Step _ (or_introl eq_refl)). lia.
    + destruct (MemoryCache.get (cache w) (WriteQueue.path item)).
      * apply (Step _ (or_intror eq_refl)). lia.
      * exact (IH (S n)
                 (withQueue (WriteQueue.remove (writeQueue w)
                               (WriteQueue.path item)) w)
                 Hf ltac:(lia)).
Qed.

(** X19.  A drain whose remote calls all succeed empties the queue: once
    one success per queued item and one for the index rebuild have come
    back, no item is left and the drain task is over. *)
Theorem successful_drain_empties_queue
    (clk : Clock) (s : jsstring) (w : World) :
  Props.freshTasks w ->
  let w' :=
    run (repeat (clk, Settle (nextTask w) (Fulfilled s))
                (S (List.length (WriteQueue.getAll (writeQueue w)))))
        (drainQueue clk w) in
  WriteQueue.getAll (writeQueue w') = [] /\ tasks w' = tasks w.
Proof.
  intros Hf. cbv zeta. unfold drainQueue, WriteQueue.getAll.
  assert (D : forall t, In t (tasks w) -> fst t <> nextTask w)
    by (destruct Hf as [_ H]; intros t Ht; apply H in Ht; lia).
  destruct (writeQueue w) as [|i q] eqn:E.
  - cbn [List.length Z.of_nat Z.eqb].
    rewrite (run_settle_absent _ (nextTask w) w D).
    + rewrite E. split; reflexivity.
    + apply Forall_forall. intros ce Hce. apply repeat_spec in Hce. subst ce.
      eexists; reflexivity.
  - replace (Z.of_nat (List.length (i :: q)) =? 0) with false
      by (symmetry; apply Z.eqb_neq; simpl; lia).
    destruct (drainLoop_all_fulfilled clk (nextTask w) s (i :: q)
                (S (List.length (i :: q))) w D (Nat.lt_succ_diag_r _))
      as [Q T].
    split; [|exact T]. rewrite Q, E.
    apply remove_all_paths. intros j Hj. apply in_map, Hj.
Qed.

End DrainProperties.

(** ** The writer: the in-flight markers *)
Section MarkerProperties.
Context {R : Runtime}.
Import AsyncWriter.

Lemma markedPaths_app (ts : list (nat * Suspended)) (t : nat * Suspended) :
  Props.markedPaths (ts ++ [t])
  = Props.markedPaths ts
    ++ match Props.marked (snd t) with Some p => [p] | None => [] end.
Proof.
  induction ts as [|t0 ts IH]; simpl.
  - destruct (Props.marked (snd t)); reflexivity.
  - rewrite IH. destruct (Props.marked (snd t0)); reflexivity.
Qed.

Lemma inv_push (w' : World) ts tid k next pend :
  tasks w' = ts ++ [(tid, k)] ->
  nextTask w' = Nat.max next (S tid) ->
  pendingWrites w' = pend ->
  NoDup (map fst ts) ->
  (forall t, In t ts -> (fst t < next)%nat) ->
  (forall t, In t ts -> fst t <> tid) ->
  NoDup (Props.markedPaths ts) ->
  (forall p, Props.marked k = Some p -> ~ In p (Props.markedPaths ts)) ->
  (forall p, (In p (Props.markedPaths ts) \/ Props.marked k = Some p)
             <-> JS.setHas pend p = true) ->
  Props.oneSyncPerPath w'.
Proof.
  intros T N P Dn Lt Ne D Nk M. unfold Props.oneSyncPerPath, Props.freshTasks.
  rewrite T, N, P, markedPaths_app, map_app. cbn [map fst snd].
  repeat split.
  - apply NoDup_app; [exact Dn | repeat constructor; intros [] |].
    intros a Ha [<- | []]. apply in_map_iff in Ha as [t [E Ht]].
    apply (Ne t Ht E).
  - intros t Ht. apply in_app_iff in Ht as [Ht | [<- | []]].
    + apply Lt in Ht. lia.
    + simpl. lia.
  - destruct (Props.marked k) as [p|]; [|rewrite app_nil_r; exact D].
    apply NoDup_app; [exact D | repeat constructor; intros [] |].
    intros a Ha [<- | []]. exact (Nk _ eq_refl Ha).
  - intros H. apply M. apply in_app_iff in H as [H | H]; [left; exact H|].
    right. destruct (Props.marked k) as [q|]; [|destruct H].
    destruct H as [<- | []]. reflexivity.
  - intros H. apply M in H. apply in_app_iff.
    destruct H as [H | H]; [left; exact H|]. right. rewrite H. left; reflexivity.
Qed.

Lemma inv_keep (w' : World) ts next pend :
  tasks w' = ts -> nextTask w' = next -> pendingWrites w' = pend ->
  NoDup (map fst ts) ->
  (forall t, In t ts -> (fst t < next)%nat) ->
  NoDup (Props.markedPaths ts) ->
  (forall p, In p (Props.markedPaths ts) <-> JS.setHas pend p = true) ->
  Props.oneSyncPerPath w'.
Proof.
  intros T N P Dn Lt D M. unfold Props.oneSyncPerPath, Props.freshTasks.
  rewrite T, N, P. auto.
Qed.

Lemma filter_tid_absent (ts : list (nat * Suspended)) (tid : nat) :
  ~ In tid (map fst ts) ->
  filter (fun t => negb (Nat.eqb (fst t) tid)) ts = ts.
Proof.
  induction ts as [|t ts IH]; simpl; intros H; [reflexivity|].
  destruct (Nat.eqb_spec (fst t) tid) as [E|N]; simpl.
  - destruct H. left; exact E.
  - rewrite IH; [reflexivity | intros Hin; apply H; right; exact Hin].
Qed.

(** What is left of the tasks once task [tid] has been taken. *)
Lemma taken_tasks (ts : list (nat * Suspended)) (tid : nat) (k : Suspended) :
  NoDup (map fst ts) -> In (tid, k) ts ->
  let ts' := filter (fun t => negb (Nat.eqb (fst t) tid)) ts in
  NoDup (map fst ts')
  /\ (forall t, In t ts' -> In t ts /\ fst t <> tid)
  /\ (forall p, In p (Props.markedPaths ts)
                <-> Props.marked k = Some p \/ In p (Props.markedPaths ts'))
  /\ (NoDup (Props.markedPaths ts) ->
      NoDup (Props.markedPaths ts')
      /\ forall p, Props.marked k = Some p -> ~ In p (Props.markedPaths ts')).
Proof.
  intros Dn Hin. cbv zeta.
  split; [|split].
  { clear Hin. induction ts as [|t ts IH]; simpl; [constructor|].
    inversion Dn as [|? ? Nt Dt]; subst.
    destruct (Nat.eqb (fst t) tid); simpl; [apply IH, Dt|].
    constructor; [|apply IH, Dt]. intros H. apply Nt.
    apply in_map_iff in H as [u [E Hu]]. apply filter_In in Hu as [Hu _].
    apply in_map_iff. exists u. auto. }
  { intros t Ht. apply filter_In in Ht as [Ht N]. split; [exact Ht|].
    apply negb_true_iff, Nat.eqb_neq in N. exact N. }
  induction ts as [|t ts IH]; [destruct Hin|].
  inversion Dn as [|? ? Nt Dt]; subst. cbn [filter Props.markedPaths].
  destruct (Nat.eqb_spec (fst t) tid) as [E|N]; cbn [negb].
  - assert (t = (tid, k)) as ->.
    { destruct Hin as [H | H]; [exact H|]. destruct Nt. rewrite E.
      apply in_map_iff. exists (tid, k). auto. }
    cbn [fst snd] in *. rewrite filter_tid_absent by exact Nt.
    split.
    + intros p. destruct (Props.marked k) as [q|].
      * simpl. split; [intros [-> | H]; auto | intros [[= ->] | H]; auto].
      * split; [auto | intros [H | H]; [discriminate | exact H]].
    + intros D. destruct (Props.marked k) as [q|].
      * inversion D as [|? ? Nq Dq]; subst. split; [exact Dq|].
        intros p [= <-]. exact Nq.
      * split; [exact D | discriminate].
  - assert (Hin' : In (tid, k) ts).
    { destruct Hin as [H | H]; [|exact H]. subst t. destruct N; reflexivity. }
    destruct (IH Dt Hin') as [M Dm]. cbn [Props.markedPaths].
    destruct (Props.marked (snd t)) as [q|].
    + split.
      * intros p. simpl. rewrite M. tauto.
      * intros D. inversion D as [|? ? Nq Dq]; subst.
        destruct (Dm Dq) as [D' Nk]. split.
        -- constructor; [|exact D']. intros H. apply Nq, M. right; exact H.
        -- intros p Hp [<- | H]; [|exact (Nk _ Hp H)].
           apply Nq, M. left; exact Hp.
    + split; [exact M | exact Dm].
Qed.

Lemma takeTask_some tid (w : World) k w' :
  takeTask tid w = (Some k, w') ->
  In (tid, k) (tasks w)
  /\ tasks w' = filter (fun t => negb (Nat.eqb (fst t) tid)) (tasks w)
  /\ pendingWrites w' = pendingWrites w
  /\ nextTask w' = nextTask w.
Proof.
  unfold takeTask.
  destruct (find _ (tasks w)) as [[n k0]|] eqn:F; [|discriminate].
  intros [= <- <-]. apply find_some in F as [F E]. cbn [fst snd] in *.
  apply Nat.eqb_eq in E. subst n. auto.
Qed.

(** A task that ends clears its marker, and only its own. *)
Lemma inv_done (w' : World) ts next pend (p : jsstring) :
  tasks w' = ts -> nextTask w' = next ->
  pendingWrites w' = JS.setDelete pend p ->
  NoDup (map fst ts) ->
  (forall t, In t ts -> (fst t < next)%nat) ->
  NoDup (Props.markedPaths ts) ->
  ~ In p (Props.markedPaths ts) ->
  (forall q, (q = p \/ In q (Props.markedPaths ts))
             <-> JS.setHas pend q = true) ->
  Props.oneSyncPerPath w'.
Proof.
  intros T N P Dn Lt D Np M.
  apply (inv_keep w' ts next (JS.setDelete pend p) T N P Dn Lt D).
  intros q. rewrite setHas_setDelete, andb_true_iff, negb_true_iff, eqb_neq.
  rewrite <- M. split.
  - intros H. split; [right; exact H | intros ->; contradiction].
  - intros [[E | H] Nq]; [contradiction | exact H].
Qed.

Lemma oneSyncPerPath_step clk (e : Event) (w : World) :
  Props.oneSyncPerPath w -> Props.oneSyncPerPath (step clk e w).
Proof.
  intros Inv. pose proof Inv as ((Dn & Lt) & D & M).
  assert (Ne : forall t, In t (tasks w) -> fst t <> nextTask w)
    by (intros t Ht; apply Lt in Ht; lia).
  destruct e as [category name content | q | | tid o]; cbn [step].
  - unfold save. destruct (MAX_FILE_SIZE <? JS.byteLength content);
      cbn [snd]; [exact Inv|].
    unfold syncToGitHub. cbn [pendingWrites withCache].
    destruct (JS.setHas (pendingWrites w) (composePath category name)) eqn:Hp.
    + eapply inv_keep; try reflexivity; assumption.
    + eapply (inv_push _ (tasks w) (nextTask w) _ (nextTask w));
        try reflexivity; try assumption.
      * intros p [= <-]. rewrite M. congruence.
      * intros p. cbv zeta. cbn [pendingWrites withPending withCache await Props.marked].
        rewrite setHas_setAdd, orb_true_iff, eqb_eq, <- M. split.
        -- intros [H | [= ->]]; auto.
        -- intros [H | ->]; auto.
  - unfold delete. destruct (MemoryCache.get (cache w) q) as [existing|];
      cbn [snd]; [|exact Inv].
    unfold deleteFromGitHub. cbn [pendingWrites withCache].
    destruct (JS.setHas (pendingWrites w) q) eqn:Hp.
    + eapply inv_keep; try reflexivity; assumption.
    + eapply (inv_push _ (tasks w) (nextTask w) _ (nextTask w));
        try reflexivity; try assumption.
      * intros p [= <-]. rewrite M. congruence.
      * intros p. cbv zeta. cbn [pendingWrites withPending withCache await Props.marked].
        rewrite setHas_setAdd, orb_true_iff, eqb_eq, <- M. split.
        -- intros [H | [= ->]]; auto.
        -- intros [H | ->]; auto.
  - unfold drainQueue. destruct (_ =? 0); [exact Inv|].
    destruct (drainLoop_shape clk (nextTask w)
                (WriteQueue.getAll (writeQueue w)) w)
      as (call & k & T & _ & Mk & N & P & _).
    eapply (inv_push _ (tasks w) _ k (nextTask w)); eauto.
    + rewrite Mk. discriminate.
    + intros p. rewrite Mk, <- M. split; [intros [H | H]; [exact H | discriminate] | auto].
  - destruct (takeTask tid w) as [[k|] w'] eqn:Tk; [|exact Inv].
    apply takeTask_some in Tk as (Hin & T' & P' & N').
    destruct (taken_tasks (tasks w) tid k Dn Hin) as (Dn' & Sub & M' & Dm).
    destruct (Dm D) as [D' Nk]. rewrite <- T' in Dn', Sub, M', D', Nk.
    clear Dm.
    assert (Lt' : forall t, In t (tasks w') -> (fst t < nextTask w')%nat)
      by (intros t Ht; rewrite N'; apply Lt, Sub, Ht).
    assert (Ne' : forall t, In t (tasks w') -> fst t <> tid)
      by (intros t Ht; apply Sub, Ht).
    assert (Push : forall (w2 : World) k2,
               tasks w2 = tasks w' ++ [(tid, k2)] ->
               nextTask w2 = Nat.max (nextTask w') (S tid) ->
               pendingWrites w2 = pendingWrites w' ->
               Props.marked k2 = Props.marked k ->
               Props.oneSyncPerPath w2).
    { intros w2 k2 T2 N2 P2 Mk.
      eapply (inv_push w2 (tasks w') tid k2 (nextTask w')); eauto.
      - rewrite Mk. exact Nk.
      - intros p. rewrite Mk, P', <- M, M'. tauto. }
    assert (Done : forall (w2 : World) p,
               Props.marked k = Some p ->
               tasks w2 = tasks w' -> nextTask w2 = nextTask w' ->
               pendingWrites w2 = JS.setDelete (pendingWrites w') p ->
               Props.oneSyncPerPath w2).
    { intros w2 p Mk T2 N2 P2.
      eapply (inv_done w2 (tasks w') (nextTask w') (pendingWrites w') p);
        eauto.
      intros q0. rewrite P', <- M, M'. split.
      - intros [-> | H]; auto.
      - intros [H | H]; [left; congruence | right; exact H]. }
    assert (Keep : forall (w2 : World),
               Props.marked k = None ->
               tasks w2 = tasks w' -> nextTask w2 = nextTask w' ->
               pendingWrites w2 = pendingWrites w' ->
               Props.oneSyncPerPath w2).
    { intros w2 Mk T2 N2 P2.
      eapply (inv_keep w2 (tasks w') (nextTask w') (pendingWrites w'));
        eauto.
      intros q0. rewrite P', <- M, M', Mk. split; [auto|].
      intros [H | H]; [discriminate | exact H]. }
    destruct k as [p c | p i | p | p i | item rest | item rest | i];
      cbn [resume].
    + destruct o as [newSha|].
      * apply (Push _ (SyncIndex p
                         (IndexGen.indexContent (nowIso clk)
                            (MemoryCache.set (cache w') p c newSha))));
          reflexivity.
      * apply (Done _ p); reflexivity.
    + apply (Done _ p); try reflexivity; destruct o; reflexivity.
    + destruct o as [newSha|].
      * apply (Push _ (DeleteIndex p
                         (IndexGen.indexContent (nowIso clk) (cache w'))));
          reflexivity.
      * apply (Done _ p); reflexivity.
    + apply (Done _ p); try reflexivity; destruct o; reflexivity.
    + destruct o;
        match goal with
        | |- context [drainLoop clk tid rest ?w0] =>
            destruct (drainLoop_shape clk tid rest w0)
              as (call & k2 & T2 & _ & Mk & N2 & P2 & _)
        end; apply (Push _ k2); assumption.
    + destruct o;
        match goal with
        | |- context [drainLoop clk tid rest ?w0] =>
            destruct (drainLoop_shape clk tid rest w0)
              as (call & k2 & T2 & _ & Mk & N2 & P2 & _)
        end; apply (Push _ k2); assumption.
    + apply Keep; try reflexivity; destruct o; reflexivity.
Qed.

(** X20.  There is never more than one background sync or delete per
    path: in every state the writer reaches from its initial state, the
    suspended tasks of [syncToGitHub] and [deleteFromGitHub] have
    distinct paths, and [pendingWrites] holds exactly those paths; every
    request and every settling call keeps it so. *)
Theorem one_background_task_per_path :
  (forall clk e w,
      Props.oneSyncPerPath w -> Props.oneSyncPerPath (step clk e w))
  /\ (forall es, Props.oneSyncPerPath (run es initial)).
Proof.
  split; [exact oneSyncPerPath_step|].
  intros es. unfold run.
  assert (G : forall w, Props.oneSyncPerPath w ->
                        Props.oneSyncPerPath
                          (fold_left (fun w ce => step (fst ce) (snd ce) w) es w)).
  { induction es as [|[clk e] es IH]; intros w H; simpl; [exact H|].
    apply IH, oneSyncPerPath_step, H. }
  apply G. unfold Props.oneSyncPerPath, Props.freshTasks. simpl.
  split; [split; [constructor | intros t []]|].
  split; [constructor|].
  intros p. split; [intros [] | discriminate].
Qed.

End MarkerProperties.

(** ** The repository setting *)
Section ConfigProperties.

Lemma split_no_sep (s : jsstring) (sep : N) :
  ~ In sep s -> JS.split s sep = [s].
Proof.
  induction s as [|c s IH]; simpl; intros H; [reflexivity|].
  destruct (N.eqb_spec c sep) as [E|N]; [destruct H; left; exact E|].
  rewrite IH; [reflexivity | intros Hin; apply H; right; exact Hin].
Qed.

Lemma split_at_sep (a b : jsstring) (sep : N) :
  ~ In sep a -> JS.split (a ++ sep :: b) sep = a :: JS.split b sep.
Proof.
  induction a as [|c a IH]; simpl; intros H.
  - rewrite N.eqb_refl. reflexivity.
  - destruct (N.eqb_spec c sep) as [E|N]; [destruct H; left; exact E|].
    rewrite IH; [reflexivity | intros Hin; apply H; right; exact Hin].
Qed.

Lemma matchRepoName_spec (s : jsstring) (seen : bool) :
  Server.matchRepoName s seen = true ->
  ~ In 47%N s /\ (seen = true \/ s <> []).
Proof.
  revert seen; induction s as [|c s IH]; intros seen; simpl.
  - intros ->. split; [intros [] | left; reflexivity].
  - rewrite andb_true_iff, negb_true_iff, N.eqb_neq. intros [N H].
    apply IH in H as [H _]. split; [|right; discriminate].
    intros [E | Hin]; [congruence | exact (H Hin)].
Qed.

Lemma matchOwner_spec (s : jsstring) (seen : bool) :
  Server.matchOwner s seen = true ->
  exists a b, s = a ++ 47%N :: b /\ ~ In 47%N a /\ ~ In 47%N b
              /\ b <> [] /\ (seen = true \/ a <> []).
Proof.
  revert seen; induction s as [|c s IH]; intros seen; simpl; [discriminate|].
  destruct (N.eqb_spec c 47) as [E|N].
  - rewrite andb_true_iff. intros [-> H].
    apply matchRepoName_spec in H as [H [D | D]]; [discriminate|].
    exists [], s. subst c. repeat split; auto.
  - intros H. apply IH in H as (a & b & -> & Ha & Hb & Nb & _).
    exists (c :: a), b. repeat split; auto; [|right; discriminate].
    intros [E | Hin]; [congruence | exact (Ha Hin)].
Qed.

(** X21.  A repository setting that passes the pattern of the
    configuration schema is taken apart by the client's constructor into
    its owner and its name: both are non-empty, hold no slash, and joined
    by a slash give the setting back.  The constructor alone is laxer:
    it throws on a setting without slash, and drops whatever follows a
    second slash. *)
Theorem repo_setting_round_trip :
  (forall s,
      Server.repoPattern s = true ->
      exists owner name,
        Server.parseRepo s = Some (owner, name)
        /\ s = owner ++ str "/" ++ name
        /\ owner <> [] /\ name <> []
        /\ ~ In 47%N owner /\ ~ In 47%N name)
  /\ (forall s, ~ In 47%N s -> Server.parseRepo s = None)
  /\ (forall owner name rest,
        owner <> [] -> name <> [] -> ~ In 47%N owner -> ~ In 47%N name ->
        Server.parseRepo (owner ++ str "/" ++ name ++ str "/" ++ rest)
        = Some (owner, name)).
Proof.
  split; [|split].
  - intros s H. apply matchOwner_spec in H
      as (a & b & -> & Ha & Hb & Nb & [D | Na]); [discriminate|].
    exists a, b. unfold Server.parseRepo.
    rewrite split_at_sep by exact Ha. rewrite split_no_sep by exact Hb.
    cbn [nth_error]. destruct a; [congruence|]. destruct b; [congruence|].
    repeat split; auto.
  - intros s H. unfold Server.parseRepo. rewrite split_no_sep by exact H.
    reflexivity.
  - intros owner name rest No Nn Ho Hn. unfold Server.parseRepo.
    change (str "/" ++ name ++ str "/" ++ rest)
      with (47%N :: name ++ 47%N :: rest).
    rewrite split_at_sep by exact Ho. rewrite split_at_sep by exact Hn.
    cbn [nth_error]. destruct owner; [congruence|]. destruct name; [congruence|].
    reflexivity.
Qed.

Lemma repo_setting_round_trip_witness :
  Server.repoPattern (str "clayton/memory-store") = true
  /\ exists owner name,
       Server.parseRepo (str "clayton/memory-store") = Some (owner, name)
       /\ str "clayton/memory-store" = owner ++ str "/" ++ name
       /\ owner <> [] /\ name <> []
       /\ ~ In 47%N owner /\ ~ In 47%N name.
Proof.
  split; [reflexivity|].
  exact (proj1 repo_setting_round_trip (str "clayton/memory-store") eq_refl).
Defined.

End ConfigProperties.

(** ** The further properties on concrete inputs *)
Section FurtherInstances.
Import AsyncWriter.

Lemma freshTasks_initial : Props.freshTasks initial.
Proof.
  split; [constructor | intros t []].
Defined.



Lemma delete_during_sync_is_undone_witness :
  JS.byteLength (str "# Test") <= MAX_FILE_SIZE
  /\ Props.freshTasks initial
  /\ JS.setHas (pendingWrites initial)
               (composePath (R := EvalRuntime.runtime)
                  (str "test") (str "sample.md")) = false
  /\ read
       (step (R := EvalRuntime.runtime)
          (mkClock 1000 (str "2026-01-01T00:00:00.000Z"))
          (Settle 0 (Fulfilled (str "4f2a")))
          (snd (delete (str "test/sample.md")
                  (snd (save (R := EvalRuntime.runtime)
                          (str "test") (str "sample.md") (str "# Test")
                          initial)))))
       (str "test/sample.md")
     = Some (str "# Test").
Proof.
  assert (H : JS.byteLength (str "# Test") <= MAX_FILE_SIZE)
    by (vm_compute; discriminate).
  split; [exact H|]. split; [exact freshTasks_initial|].
  split; [reflexivity|].
  exact (proj2 (proj2 (proj2
           (delete_during_sync_is_undone (R := EvalRuntime.runtime)
              (str "test") (str "sample.md") (str "# Test") (str "4f2a")
              initial (mkClock 1000 (str "2026-01-01T00:00:00.000Z"))
              H freshTasks_initial eq_refl)))).
Defined.


Lemma drain_is_sequential_witness :
  WriteQueue.getAll
    (writeQueue
       (withQueue
          [WriteQueue.mkItem (str "a/x.md") (str "1") WriteQueue.save 10 0]
          initial)) <> []
  /\ exists call k,
       remote (drainQueue (R := EvalRuntime.runtime)
                 (mkClock 1000 (str "2026-01-01T00:00:00.000Z"))
                 (withQueue
                    [WriteQueue.mkItem (str "a/x.md") (str "1")
                       WriteQueue.save 10 0]
                    initial))
       = remote (withQueue
                   [WriteQueue.mkItem (str "a/x.md") (str "1")
                      WriteQueue.save 10 0]
                   initial) ++ [call]
       /\ tasks (drainQueue (R := EvalRuntime.runtime)
                   (mkClock 1000 (str "2026-01-01T00:00:00.000Z"))
                   (withQueue
                      [WriteQueue.mkItem (str "a/x.md") (str "1")
                         WriteQueue.save 10 0]
                      initial))
          = tasks (withQueue
                     [WriteQueue.mkItem (str "a/x.md") (str "1")
                        WriteQueue.save 10 0]
                     initial) ++ [(0%nat, k)]
       /\ Props.marked k = None.
Proof.
  assert (H : WriteQueue.getAll
                (writeQueue
                   (withQueue
                      [WriteQueue.mkItem (str "a/x.md") (str "1")
                         WriteQueue.save 10 0]
                      initial)) <> []) by discriminate.
  split; [exact H|].
  destruct (proj1 (drain_is_sequential (R := EvalRuntime.runtime)
                     (mkClock 1000 (str "2026-01-01T00:00:00.000Z"))
                     (withQueue
                        [WriteQueue.mkItem (str "a/x.md") (str "1")
                           WriteQueue.save 10 0]
                        initial)) H)
    as (call & k & Hr & Ht & Hm & _).
  exists call, k. auto.
Defined.

Lemma drain_skips_deletes_of_uncached_witness :
  WriteQueue.getAll
    (writeQueue
       (withQueue
          [WriteQueue.mkItem (str "a/x.md") [] WriteQueue.delete 10 1]
          initial)) <> []
  /\ Forall (fun i => WriteQueue.operation i = WriteQueue.delete
                      /\ MemoryCache.get
                           (cache
                              (withQueue
                                 [WriteQueue.mkItem (str "a/x.md") []
                                    WriteQueue.delete 10 1]
                                 initial))
                           (WriteQueue.path i) = None)
            (WriteQueue.getAll
               (writeQueue
                  (withQueue
                     [WriteQueue.mkItem (str "a/x.md") []
                        WriteQueue.delete 10 1]
                     initial)))
  /\ writeQueue
       (drainQueue (R := EvalRuntime.runtime)
          (mkClock 1000 (str "2026-01-01T00:00:00.000Z"))
          (withQueue
             [WriteQueue.mkItem (str "a/x.md") [] WriteQueue.delete 10 1]
             initial)) = [].
Proof.
  assert (H : WriteQueue.getAll
                (writeQueue
                   (withQueue
                      [WriteQueue.mkItem (str "a/x.md") []
                         WriteQueue.delete 10 1]
                      initial)) <> []) by discriminate.
  assert (F : Forall (fun i => WriteQueue.operation i = WriteQueue.delete
                      /\ MemoryCache.get
                           (cache
                              (withQueue
                                 [WriteQueue.mkItem (str "a/x.md") []
                                    WriteQueue.delete 10 1]
                                 initial))
                           (WriteQueue.path i) = None)
            (WriteQueue.getAll
               (writeQueue
                  (withQueue
                     [WriteQueue.mkItem (str "a/x.md") []
                        WriteQueue.delete 10 1]
                     initial))))
    by (repeat constructor).
  split; [exact H|]. split; [exact F|].
  exact (proj1 (drain_skips_deletes_of_uncached (R := EvalRuntime.runtime)
                  (mkClock 1000 (str "2026-01-01T00:00:00.000Z")) _ H F)).
Defined.

Lemma successful_drain_empties_queue_witness :
  Props.freshTasks
    (withQueue
       [WriteQueue.mkItem (str "a/x.md") (str "1") WriteQueue.save 10 0;
        WriteQueue.mkItem (str "b/y.md") [] WriteQueue.delete 11 1]
       initial)
  /\ WriteQueue.getAll
       (writeQueue
          (run (R := EvalRuntime.runtime)
             (repeat (mkClock 1000 (str "2026-01-01T00:00:00.000Z"),
                      Settle 0 (Fulfilled (str "4f2a"))) 3)
             (drainQueue (R := EvalRuntime.runtime)
                (mkClock 1000 (str "2026-01-01T00:00:00.000Z"))
                (withQueue
                   [WriteQueue.mkItem (str "a/x.md") (str "1")
                      WriteQueue.save 10 0;
                    WriteQueue.mkItem (str "b/y.md") []
                      WriteQueue.delete 11 1]
                   initial)))) = [].
Proof.
  split; [exact freshTasks_initial|].
  exact (proj1 (successful_drain_empties_queue (R := EvalRuntime.runtime)
                  (mkClock 1000 (str "2026-01-01T00:00:00.000Z"))
                  (str "4f2a")
                  (withQueue
                     [WriteQueue.mkItem (str "a/x.md") (str "1")
                        WriteQueue.save 10 0;
                      WriteQueue.mkItem (str "b/y.md") []
                        WriteQueue.delete 11 1]
                     initial)
                  freshTasks_initial)).
Defined.

Lemma one_background_task_per_path_witness :
  Props.oneSyncPerPath initial
  /\ Props.oneSyncPerPath
       (step (R := EvalRuntime.runtime)
          (mkClock 1000 (str "2026-01-01T00:00:00.000Z"))
          (CallSave (str "test") (str "sample.md") (str "# Test")) initial).
Proof.
  assert (H : Props.oneSyncPerPath initial)
    by exact (proj2 (one_background_task_per_path
                       (R := EvalRuntime.runtime)) []).
  split; [exact H|].
  exact (proj1 (one_background_task_per_path (R := EvalRuntime.runtime))
               _ _ _ H).
Defined.

End FurtherInstances.

(** ** Paths, listings and reads across requests *)
Section PathProperties.
Context {R : Runtime}.
Import AsyncWriter.

Lemma categoryChar_ascii (c : N) : Spec.categoryChar c = true -> (c < 128)%N.
Proof.
  unfold Spec.categoryChar.
  rewrite !orb_true_iff, !andb_true_iff, !N.leb_le, N.eqb_eq. lia.
Qed.

Lemma categoryChar_lower (c : N) :
  Spec.categoryChar c = true -> JS.asciiLower c = c.
Proof.
  unfold Spec.categoryChar, JS.asciiLower.
  rewrite !orb_true_iff, !andb_true_iff, !N.leb_le, N.eqb_eq. intros H.
  destruct (N.leb_spec 65 c); [|reflexivity].
  destruct (N.leb_spec c 90); [lia | reflexivity].
Qed.

Lemma normalizeCategory_chars (category : jsstring) :
  Forall (fun c => Spec.categoryChar c = true) (normalizeCategory category).
Proof.
  rewrite normalizeCategory_spec. unfold Spec.normalizedCategory.
  apply Forall_forall. intros c Hc. apply in_map_iff in Hc as [d [E _]].
  destruct (Spec.categoryChar d) eqn:D; subst c; [exact D | reflexivity].
Qed.

Lemma normalizeCategory_no_slash (category : jsstring) :
  ~ In 47%N (normalizeCategory category).
Proof.
  intros H. pose proof (normalizeCategory_chars category) as F.
  rewrite Forall_forall in F. apply F in H. discriminate H.
Qed.

Lemma endsWith_app (s suffix : jsstring) : JS.endsWith (s ++ suffix) suffix = true.
Proof. apply endsWith_spec. exists s. reflexivity. Qed.

(** X22.  Normalization settles at once: a normalized category holds
    only characters of [[a-z0-9-]] and a normalized name ends in ".md",
    ".yaml" or ".json", and normalizing either again changes nothing; so
    a save under the category and name of a returned path addresses the
    same path. *)
Theorem normalization_is_idempotent (category name : jsstring) :
  Forall (fun c => Spec.categoryChar c = true) (normalizeCategory category)
  /\ List.length (normalizeCategory category)
     = List.length (toLowerCase category)
  /\ normalizeCategory (normalizeCategory category) = normalizeCategory category
  /\ (Spec.endsIn (normalizeName name) (str ".md")
      \/ Spec.endsIn (normalizeName name) (str ".yaml")
      \/ Spec.endsIn (normalizeName name) (str ".json"))
  /\ normalizeName (normalizeName name) = normalizeName name
  /\ composePath (normalizeCategory category) (normalizeName name)
     = composePath category name.
Proof.
  pose proof (normalizeCategory_chars category) as F.
  assert (L : List.length (normalizeCategory category)
              = List.length (toLowerCase category))
    by (rewrite normalizeCategory_spec; apply length_map).
  assert (I : normalizeCategory (normalizeCategory category)
              = normalizeCategory category).
  { rewrite (normalizeCategory_spec (normalizeCategory category)).
    unfold Spec.normalizedCategory. rewrite toLowerCase_ascii.
    - rewrite map_map. rewrite <- (map_id (normalizeCategory category)) at 2.
      apply map_ext_in. intros c Hc. rewrite Forall_forall in F.
      rewrite (categoryChar_lower c (F c Hc)), (F c Hc). reflexivity.
    - eapply Forall_impl; [|exact F]. exact categoryChar_ascii. }
  assert (E : Spec.endsIn (normalizeName name) (str ".md")
              \/ Spec.endsIn (normalizeName name) (str ".yaml")
              \/ Spec.endsIn (normalizeName name) (str ".json")).
  { unfold normalizeName. rewrite <- !endsWith_spec.
    destruct (JS.endsWith name (str ".md")) eqn:E1; [auto|].
    destruct (JS.endsWith name (str ".yaml")) eqn:E2; [auto|].
    destruct (JS.endsWith name (str ".json")) eqn:E3; [auto|].
    left. apply endsWith_app. }
  assert (J : normalizeName (normalizeName name) = normalizeName name)
    by (apply normalizeName_kept, E).
  repeat split; try assumption.
  unfold composePath. rewrite I, J. reflexivity.
Qed.

Lemma firstSegment_of_path (a b : jsstring) :
  ~ In 47%N a -> Props.categoryOf (a ++ str "/" ++ b) = a.
Proof.
  intros H. unfold Props.categoryOf, Spec.firstSegment.
  assert (existsb (N.eqb 47) (a ++ str "/" ++ b) = true) as ->.
  { apply existsb_exists. exists 47%N. split; [|reflexivity].
    apply in_app_iff. right. left. reflexivity. }
  change (str "/" ++ b) with (47%N :: b). rewrite split_at_sep by exact H.
  reflexivity.
Qed.

(** X23.  While no "index.json" is cached, which is when
    [list_knowledge] draws its listing from the cache, a file is listed
    as soon as it is saved: after the save "index.json" is still not
    cached, and the listing drawn from the cache shows the saved path
    under its normalized category, and that category among the
    categories; so does the manifest [updateIndex] builds from that
    cache. *)
Theorem saved_file_is_listed
    (category name content nowIso : jsstring) (w : World) :
  JS.byteLength content <= MAX_FILE_SIZE ->
  MemoryCache.get (cache w) IndexGen.INDEX_PATH = None ->
  let c' := cache (snd (save category name content w)) in
  MemoryCache.get c' IndexGen.INDEX_PATH = None
  /\ In (composePath category name, normalizeCategory category)
        (idx_files (Server.listFromCache nowIso c'))
  /\ In (normalizeCategory category)
        (idx_categories (Server.listFromCache nowIso c'))
  /\ In (composePath category name, normalizeCategory category)
        (idx_files (IndexGen.buildIndex nowIso c'))
  /\ In (normalizeCategory category)
        (idx_categories (IndexGen.buildIndex nowIso c')).
Proof.
  intros Hsize Hidx c'.
  assert (X : MemoryCache.get c' IndexGen.INDEX_PATH = None).
  { subst c'. unfold save. rewrite (size_accepted _ Hsize). cbn [snd].
    rewrite cache_syncToGitHub. cbn [cache withCache].
    rewrite get_set_other by apply composePath_not_index. exact Hidx. }
  split; [exact X|].
  assert (K : In (composePath category name) (MemoryCache.keys c')).
  { apply has_In. unfold MemoryCache.has. subst c'.
    rewrite (proj2 (save_accepted category name content w Hsize)).
    reflexivity. }
  assert (L : In (composePath category name, normalizeCategory category)
                 (map (fun path =>
                         let parts := JS.split path 47%N in
                         (path,
                          if 1 <? Z.of_nat (List.length parts)
                          then hd [] parts else str "root"))
                      (filter (fun path =>
                                 negb (JS.eqb path IndexGen.INDEX_PATH))
                              (MemoryCache.keys c')))).
  { apply In_listed. split; [exact K|].
    split; [apply composePath_not_index|].
    unfold composePath. symmetry.
    apply firstSegment_of_path, normalizeCategory_no_slash. }
  unfold Server.listFromCache, IndexGen.buildIndex, JS.sort.
  cbn [idx_files idx_categories].
  split; [exact L|].
  split; [rewrite In_sortBy, In_setOf; apply in_map_iff;
          exists (composePath category name, normalizeCategory category);
          split; [reflexivity | exact L]|].
  split; [rewrite In_sortBy; exact L|].
  rewrite In_sortBy, In_setOf. apply in_map_iff.
  exists (composePath category name, normalizeCategory category).
  split; [reflexivity | rewrite In_sortBy; exact L].
Qed.

(** X24.  A remote call that fails never changes what the cache holds,
    whichever task was waiting for it; a settle for a task number that
    is not waiting changes nothing at all. *)
Theorem failed_call_keeps_cache (clk : Clock) (tid : nat) (w : World) :
  cache (step clk (Settle tid Rejected) w) = cache w
  /\ (forall o,
        (forall t, In t (tasks w) -> fst t <> tid) ->
        step clk (Settle tid o) w = w).
Proof.
  split.
  - cbn [step]. destruct (takeTask tid w) as [[k|] w'] eqn:T; [|reflexivity].
    apply tasks_takeTask in T as (_ & C & _).
    rewrite cache_resume_rejected. exact C.
  - intros o H. cbn [step]. rewrite (takeTask_absent tid w H). reflexivity.
Qed.

Lemma marked_in (ts : list (nat * Suspended)) (tid : nat) (k : Suspended)
    (p : jsstring) :
  In (tid, k) ts -> Props.marked k = Some p -> In p (Props.markedPaths ts).
Proof.
  intros H M. induction ts as [|t ts IH]; [destruct H|].
  cbn [Props.markedPaths]. destruct H as [-> | H].
  - cbn [snd]. rewrite M. left; reflexivity.
  - destruct (Props.marked (snd t)); [right|]; apply IH, H.
Qed.

Lemma settled_after_save (category name content : jsstring) (w : World) :
  JS.byteLength content <= MAX_FILE_SIZE ->
  (forall tid c, ~ In (tid, SyncPut (composePath category name) c) (tasks w)) ->
  Spec.settled (composePath category name) content
               (snd (save category name content w)).
Proof.
  intros Hsize Hfree. split.
  - unfold read.
    rewrite (proj2 (save_accepted category name content w Hsize)).
    reflexivity.
  - intros t c. unfold save. rewrite (size_accepted _ Hsize). cbn [snd].
    unfold syncToGitHub. cbn [pendingWrites withCache].
    destruct (JS.setHas _ _); cbn [tasks await withPending withCache].
    + intros H. destruct (Hfree _ _ H).
    + intros H. apply in_app_iff in H as [H | [H | []]].
      * destruct (Hfree _ _ H).
      * injection H as _ H. symmetry; exact H.
Qed.

(** An event of the server that is neither a save nor a delete of [p]
    keeps a read of [p], as long as no [read_memory] of [p] waits for its
    file: none starts while [p] is cached, and the fill of another read
    writes another path. *)
Lemma server_step_keeps_read (e : ReadMemory.Event) (s : ReadMemory.State)
    (p x : jsstring) :
  p <> IndexGen.INDEX_PATH ->
  ~ Props.requests p e ->
  Spec.settled p x (ReadMemory.writer s) ->
  (forall rid, ~ In (rid, p) (ReadMemory.reads s)) ->
  Spec.settled p x (ReadMemory.writer (ReadMemory.step e s))
  /\ forall rid, ~ In (rid, p) (ReadMemory.reads (ReadMemory.step e s)).
Proof.
  intros NI NT St Nr. destruct e as [clk we | q | rid r]; cbn [ReadMemory.step].
  - cbn [ReadMemory.writer ReadMemory.reads]. split; [|exact Nr].
    apply settled_step; assumption.
  - unfold ReadMemory.handleReadMemory.
    destruct (MemoryCache.get (cache (ReadMemory.writer s)) q) eqn:G;
      cbn [snd ReadMemory.writer ReadMemory.reads]; (split; [exact St|]);
      [exact Nr|].
    intros rid H. apply in_app_iff in H as [H | [H | []]]; [exact (Nr _ H)|].
    injection H as _ ->. destruct St as [Hr _]. unfold read in Hr.
    rewrite G in Hr. discriminate Hr.
  - unfold ReadMemory.fetched.
    destruct (find _ (ReadMemory.reads s)) as [[n q]|] eqn:F;
      cbn [snd]; [|split; assumption].
    apply find_some in F as [F _]. cbn [snd].
    assert (Nq : q <> p) by (intros ->; exact (Nr _ F)).
    assert (Sub : forall rid0,
               ~ In (rid0, p)
                    (filter (fun t => negb (Nat.eqb (fst t) rid))
                            (ReadMemory.reads s)))
      by (intros rid0 H; apply filter_In in H as [H _]; exact (Nr _ H)).
    destruct r as [c sha | | m];
      cbn [snd ReadMemory.writer ReadMemory.reads]; (split; [|exact Sub]);
      [|exact St|exact St].
    destruct St as [Hr Hs]. split; [|exact Hs].
    unfold read in *. cbn [cache withCache].
    rewrite get_set_other by exact Nq. exact Hr.
Qed.

(** X25.  Read-your-writes holds for every save made while nothing is in
    flight for its path: when the writer's state has at most one
    background task per path, [pendingWrites] does not hold the saved
    path and no [read_memory] of that path waits for its file, then after
    any later events of the server (requests and settling calls of the
    writer, [read_memory] requests and their fetches) that neither save
    nor delete that path, a read returns the saved content, however the
    remote calls settle.  A [read_memory] of the path that does wait for
    its file breaks it: when the file comes back after the save, it is
    written over the saved content. *)
Theorem read_your_writes_when_idle
    (s : ReadMemory.State) (later : list ReadMemory.Event)
    (category name content : jsstring) :
  JS.byteLength content <= MAX_FILE_SIZE ->
  Props.oneSyncPerPath (ReadMemory.writer s) ->
  JS.setHas (pendingWrites (ReadMemory.writer s))
            (composePath category name) = false ->
  let saved :=
    ReadMemory.mkState (snd (save category name content (ReadMemory.writer s)))
                       (ReadMemory.reads s) (ReadMemory.nextRead s) in
  ((forall rid, ~ In (rid, composePath category name) (ReadMemory.reads s)) ->
   Forall (fun e => ~ Props.requests (composePath category name) e) later ->
   read (ReadMemory.writer (ReadMemory.run later saved))
        (composePath category name)
   = Some content)
  /\ (forall rid old sha,
        find (fun t => Nat.eqb (fst t) rid) (ReadMemory.reads s)
        = Some (rid, composePath category name) ->
        read (ReadMemory.writer
                (ReadMemory.step (ReadMemory.Settled rid
                                    (ReadMemory.Found old sha)) saved))
             (composePath category name)
        = Some old).
Proof.
  intros Hsize Inv Hidle saved. split.
  - intros Hreads Hlater.
    assert (Free : forall tid c,
               ~ In (tid, SyncPut (composePath category name) c)
                    (tasks (ReadMemory.writer s))).
    { intros tid c Hin. destruct Inv as (_ & _ & M).
      apply (marked_in _ _ _ (composePath category name)) in Hin;
        [|reflexivity].
      apply M in Hin. congruence. }
    pose proof (settled_after_save category name content _ Hsize Free) as St.
    assert (G : forall es st,
               Spec.settled (composePath category name) content
                            (ReadMemory.writer st) ->
               (forall rid, ~ In (rid, composePath category name)
                                 (ReadMemory.reads st)) ->
               Forall (fun e => ~ Props.requests (composePath category name) e)
                      es ->
               Spec.settled (composePath category name) content
                            (ReadMemory.writer (ReadMemory.run es st))).
    { induction es as [|e es IH]; intros st H1 H2 F; [exact H1|].
      inversion F as [|? ? Fe Fes]; subst.
      destruct (server_step_keeps_read e st _ content
                  (composePath_not_index category name) Fe H1 H2)
        as [H1' H2'].
      exact (IH _ H1' H2' Fes). }
    exact (proj1 (G later saved St Hreads Hlater)).
  - intros rid old sha F. subst saved.
    cbn [ReadMemory.step]. unfold ReadMemory.fetched.
    cbn [ReadMemory.reads]. rewrite F.
    cbn [snd ReadMemory.writer]. unfold read. cbn [cache withCache].
    rewrite get_set_same. reflexivity.
Qed.

End PathProperties.

Lemma saved_file_is_listed_witness :
  JS.byteLength (str "# Test") <= AsyncWriter.MAX_FILE_SIZE
  /\ MemoryCache.get (AsyncWriter.cache AsyncWriter.initial)
                     IndexGen.INDEX_PATH = None
  /\ In (str "test")
        (idx_categories
           (Server.listFromCache (str "2026-01-01T00:00:00.000Z")
              (AsyncWriter.cache
                 (snd (AsyncWriter.save (R := EvalRuntime.runtime)
                         (str "test") (str "sample.md") (str "# Test")
                         AsyncWriter.initial))))).
Proof.
  assert (H : JS.byteLength (str "# Test") <= AsyncWriter.MAX_FILE_SIZE)
    by (vm_compute; discriminate).
  split; [exact H|]. split; [reflexivity|].
  exact (proj1 (proj2 (proj2
           (saved_file_is_listed (R := EvalRuntime.runtime)
              (str "test") (str "sample.md") (str "# Test")
              (str "2026-01-01T00:00:00.000Z")
              AsyncWriter.initial H eq_refl)))).
Defined.

Lemma failed_call_keeps_cache_witness :
  (forall t, In t (AsyncWriter.tasks AsyncWriter.initial) -> fst t <> 7%nat)
  /\ AsyncWriter.step (R := EvalRuntime.runtime)
       (AsyncWriter.mkClock 1000 (str "2026-01-01T00:00:00.000Z"))
       (AsyncWriter.Settle 7 (AsyncWriter.Fulfilled (str "4f2a")))
       AsyncWriter.initial
     = AsyncWriter.initial.
Proof.
  assert (H : forall t, In t (AsyncWriter.tasks AsyncWriter.initial) ->
                        fst t <> 7%nat) by (intros t []).
  split; [exact H|].
  exact (proj2 (failed_call_keeps_cache (R := EvalRuntime.runtime)
                  (AsyncWriter.mkClock 1000 (str "2026-01-01T00:00:00.000Z"))
                  7 AsyncWriter.initial)
               (AsyncWriter.Fulfilled (str "4f2a")) H).
Defined.

Lemma oneSyncPerPath_initial : Props.oneSyncPerPath AsyncWriter.initial.
Proof.
  split; [split; [constructor | intros t []]|].
  split; [constructor|].
  intros p. split; [intros [] | discriminate].
Defined.

Lemma read_your_writes_when_idle_witness :
  JS.byteLength (str "v2") <= AsyncWriter.MAX_FILE_SIZE
  /\ Props.oneSyncPerPath AsyncWriter.initial
  /\ JS.setHas (AsyncWriter.pendingWrites AsyncWriter.initial)
       (AsyncWriter.composePath (R := EvalRuntime.runtime)
          (str "test") (str "a.md")) = false
  /\ (forall rid,
        ~ In (rid, AsyncWriter.composePath (R := EvalRuntime.runtime)
                     (str "test") (str "a.md"))
             [(0%nat, str "notes/b.md")])
  /\ Forall (fun e => ~ Props.requests (R := EvalRuntime.runtime)
                        (AsyncWriter.composePath (R := EvalRuntime.runtime)
                           (str "test") (str "a.md")) e)
            [ReadMemory.Settled 0
               (ReadMemory.Found (str "# B") (str "7c"));
             ReadMemory.Writer
               (AsyncWriter.mkClock 1000 (str "2026-01-01T00:00:00.000Z"))
               (AsyncWriter.Settle 0 AsyncWriter.Rejected);
             ReadMemory.Read (str "test/a.md")]
  /\ AsyncWriter.read
       (ReadMemory.writer
          (ReadMemory.run (R := EvalRuntime.runtime)
             [ReadMemory.Settled 0
                (ReadMemory.Found (str "# B") (str "7c"));
              ReadMemory.Writer
                (AsyncWriter.mkClock 1000 (str "2026-01-01T00:00:00.000Z"))
                (AsyncWriter.Settle 0 AsyncWriter.Rejected);
              ReadMemory.Read (str "test/a.md")]
             (ReadMemory.mkState
                (snd (AsyncWriter.save (R := EvalRuntime.runtime)
                        (str "test") (str "a.md") (str "v2")
                        AsyncWriter.initial))
                [(0%nat, str "notes/b.md")] 1)))
       (AsyncWriter.composePath (R := EvalRuntime.runtime)
          (str "test") (str "a.md"))
     = Some (str "v2").
Proof.
  assert (H : JS.byteLength (str "v2") <= AsyncWriter.MAX_FILE_SIZE)
    by (vm_compute; discriminate).
  assert (N : forall rid,
             ~ In (rid, AsyncWriter.composePath (R := EvalRuntime.runtime)
                          (str "test") (str "a.md"))
                  [(0%nat, str "notes/b.md")])
    by (intros rid [E | []]; vm_compute in E; discriminate E).
  assert (F : Forall (fun e => ~ Props.requests (R := EvalRuntime.runtime)
                        (AsyncWriter.composePath (R := EvalRuntime.runtime)
                           (str "test") (str "a.md")) e)
            [ReadMemory.Settled 0
               (ReadMemory.Found (str "# B") (str "7c"));
             ReadMemory.Writer
               (AsyncWriter.mkClock 1000 (str "2026-01-01T00:00:00.000Z"))
               (AsyncWriter.Settle 0 AsyncWriter.Rejected);
             ReadMemory.Read (str "test/a.md")])
    by (repeat constructor; intros []).
  split; [exact H|]. split; [exact oneSyncPerPath_initial|].
  split; [reflexivity|]. split; [exact N|]. split; [exact F|].
  exact (proj1 (read_your_writes_when_idle (R := EvalRuntime.runtime)
                  (ReadMemory.mkState AsyncWriter.initial
                     [(0%nat, str "notes/b.md")] 1)
                  [ReadMemory.Settled 0
                     (ReadMemory.Found (str "# B") (str "7c"));
                   ReadMemory.Writer
                     (AsyncWriter.mkClock 1000 (str "2026-01-01T00:00:00.000Z"))
                     (AsyncWriter.Settle 0 AsyncWriter.Rejected);
                   ReadMemory.Read (str "test/a.md")]
                  (str "test") (str "a.md") (str "v2")
                  H oneSyncPerPath_initial eq_refl)
               N F).
Defined.
